(** * PipeWire client log facility ([src/pipewire/client/log.c])

    A shallow embedding of the process-wide log facility: the level
    filter, the formatter [do_logv], the trace ring buffer with its
    producer ([do_logv], trace branch) and consumer ([on_trace_event]),
    and the loop attachment [do_set_loop].

    Conventions.
    - [uint32_t] and [int32_t] values are [Z] with the wrap-around written
      out ([wrap32], [to_int32]).
    - C strings are [string]; the storage [trace_data] and the standard
      error stream are [list byte].
    - Calls to the outside world (event loop, [eventfd], [close], [read],
      [write]) are recorded, in order, in the field [sys]; what the outside
      returns ([eventfd]'s descriptor, whether [read] succeeded) is an
      argument of the operation.
    - Behaviour that C leaves undefined is the outcome [Undefined]. *)

From Stdlib Require Import ZArith Lia Ascii String DecimalString.
From Stdlib.Strings Require Import Byte.
From stdpp Require Import base tactics option list strings.

Local Open Scope Z_scope.

(** ** Machine integers *)

Module C.

(** Conversion to [uint32_t]. *)
Definition wrap32 (x : Z) : Z := x mod 2 ^ 32.

(** Conversion to [int32_t] (two's complement). *)
Definition to_int32 (x : Z) : Z := (x + 2 ^ 31) mod 2 ^ 32 - 2 ^ 31.

(** [SPA_MIN(a, b)] is [((a) < (b) ? (a) : (b))]. *)
Definition SPA_MIN (a b : Z) : Z := if a <? b then a else b.

End C.
Import C.

(** ** Outcomes of a C computation *)

Inductive fault : Set :=
| NullPointer   (* a null pointer is used *)
| OutOfBounds.  (* an object is read or written past its end *)

Inductive outcome (A : Type) : Type :=
| Done (a : A)
| Undefined (f : fault)
| OutOfFuel.
Arguments Done {A} a.
Arguments Undefined {A} f.
Arguments OutOfFuel {A}.

Global Instance outcome_ret : MRet outcome := λ A a, Done a.
Global Instance outcome_bind : MBind outcome := λ A B k m,
  match m with
  | Done a => k a
  | Undefined f => Undefined f
  | OutOfFuel => OutOfFuel
  end.

(** ** Memory: arrays of bytes *)

(** Read [n] bytes of the object [buf] from offset [off]. *)
Definition mem_read (buf : list byte) (off n : Z) : outcome (list byte) :=
  if decide (0 ≤ off ∧ 0 ≤ n ∧ off + n ≤ Z.of_nat (length buf))
  then Done (take (Z.to_nat n) (drop (Z.to_nat off) buf))
  else Undefined OutOfBounds.

(** [memcpy(buf + off, src, length src)]. *)
Definition memcpy (buf : list byte) (off : Z) (src : list byte) : outcome (list byte) :=
  if decide (0 ≤ off ∧ off + Z.of_nat (length src) ≤ Z.of_nat (length buf))
  then Done (take (Z.to_nat off) buf ++ src
               ++ drop (Z.to_nat off + length src) buf)
  else Undefined OutOfBounds.

(** ** The ring buffer of [spa/ringbuffer.h] *)

(** The struct, as [log.c] initialises it:
    [{0, 0, TRACE_BUFFER, TRACE_BUFFER - 1}]. *)
Record spa_ringbuffer : Set := mk_rb {
  rb_readindex : Z;    (* uint32_t, the read cursor *)
  rb_writeindex : Z;   (* uint32_t, the write cursor *)
  rb_size : Z;         (* uint32_t, the capacity *)
  rb_mask : Z          (* uint32_t, capacity - 1 *)
}.

(** Modelled from the spec: [spa_ringbuffer_get_read_index] of
    [spa/ringbuffer.h], which is not among the sources. "consumer queries
    unread byte count via [write_cursor - read_cursor]"; the count is an
    [int32_t], the cursor comes back through the pointer argument. *)
Definition spa_ringbuffer_get_read_index (rb : spa_ringbuffer) : Z * Z :=
  (to_int32 (wrap32 (rb_writeindex rb - rb_readindex rb)), rb_readindex rb).

(** Modelled from the spec: [spa_ringbuffer_read_update] of
    [spa/ringbuffer.h]: "advances [read_cursor]", by storing the new cursor. *)
Definition spa_ringbuffer_read_update (rb : spa_ringbuffer) (index : Z) : spa_ringbuffer :=
  mk_rb (wrap32 index) (rb_writeindex rb) (rb_size rb) (rb_mask rb).

(** Modelled from the spec: [spa_ringbuffer_get_write_index] of
    [spa/ringbuffer.h]: the fill count and the current write cursor. *)
Definition spa_ringbuffer_get_write_index (rb : spa_ringbuffer) : Z * Z :=
  (to_int32 (wrap32 (rb_writeindex rb - rb_readindex rb)), rb_writeindex rb).

(** Modelled from the spec: [spa_ringbuffer_write_data] of
    [spa/ringbuffer.h]: "copies [len(data)] bytes into the buffer at the
    physical offset ..., handling the wraparound split (data may straddle
    the end of the backing storage and must be copied in two pieces). Does
    not update the write cursor itself". *)
Definition spa_ringbuffer_write_data (rb : spa_ringbuffer) (buffer : list byte)
    (offset : Z) (data : list byte) (len : Z) : outcome (list byte) :=
  let first := SPA_MIN len (wrap32 (rb_size rb - offset)) in
  src1 ← mem_read data 0 first;
  buffer1 ← memcpy buffer offset src1;
  if first <? len then
    src2 ← mem_read data first (len - first);
    memcpy buffer1 0 src2
  else Done buffer1.

(** Modelled from the spec: [spa_ringbuffer_write_update] of
    [spa/ringbuffer.h]: the "explicit, separate commit step" that
    publishes the new write cursor. *)
Definition spa_ringbuffer_write_update (rb : spa_ringbuffer) (index : Z) : spa_ringbuffer :=
  mk_rb (rb_readindex rb) (wrap32 index) (rb_size rb) (rb_mask rb).

(** ** Levels and formatting *)

(** Modelled from the spec: [enum spa_log_level] of [spa/log.h]: "Levels,
    from least to most verbose: none, error, warn, info, debug, trace". *)
Inductive spa_log_level : Set :=
| SPA_LOG_LEVEL_NONE
| SPA_LOG_LEVEL_ERROR
| SPA_LOG_LEVEL_WARN
| SPA_LOG_LEVEL_INFO
| SPA_LOG_LEVEL_DEBUG
| SPA_LOG_LEVEL_TRACE.

Global Instance spa_log_level_eq_dec : EqDecision spa_log_level.
Proof. solve_decision. Defined.

(** The integer value of an enumerator. *)
Definition level_num (level : spa_log_level) : Z :=
  match level with
  | SPA_LOG_LEVEL_NONE => 0
  | SPA_LOG_LEVEL_ERROR => 1
  | SPA_LOG_LEVEL_WARN => 2
  | SPA_LOG_LEVEL_INFO => 3
  | SPA_LOG_LEVEL_DEBUG => 4
  | SPA_LOG_LEVEL_TRACE => 5
  end.

Definition DEFAULT_LOG_LEVEL : spa_log_level := SPA_LOG_LEVEL_ERROR.

Definition TRACE_BUFFER : Z := 16 * 1024.

(** [static const char *levels[]] of [do_logv]. *)
Definition levels : list string := ["-"; "E"; "W"; "I"; "D"; "T"; "*T*"]%string.

(** The newline character and the terminating NUL. *)
Definition nl : string := String (ascii_of_nat 10) EmptyString.
Definition NUL : byte := x00.

(** [strrchr(s, c)] for [c] other than NUL: the suffix of [s] that starts
    at the last occurrence of [c], or the null pointer. *)
Fixpoint strrchr (s : string) (c : ascii) : option string :=
  match s with
  | EmptyString => None
  | String a s' =>
      match strrchr s' c with
      | Some r => Some r
      | None => if decide (a = c) then Some s else None
      end
  end.

(** [p + 1] for a pointer [p] into a string; undefined on the null
    pointer. *)
Definition ptr_succ (p : option string) : outcome string :=
  match p with
  | Some (String _ rest) => Done rest
  | Some EmptyString => Undefined OutOfBounds
  | None => Undefined NullPointer
  end.

(** [%i] and [%d]: a C [int] in decimal. *)
Definition fmt_int (n : Z) : string := NilZero.string_of_int (Z.to_int n).

(** [snprintf(buf, n, ...)] where the format expands to [s]: the buffer
    receives at most [n - 1] characters (and a NUL); the value returned is
    the length [s] has, truncated or not. *)
Definition snprintf (n : nat) (s : string) : string * Z :=
  (substring 0 (n - 1) s, Z.of_nat (String.length s)).

(** The bytes of a [char] array that holds the C string [s]: the
    characters, then the terminating NUL. *)
Definition c_array (s : string) : list byte := list_byte_of_string s ++ [NUL].

(** The expansion of ["[%s][%s:%i %s()] %s\n"]. *)
Definition format_location (label base : string) (line : Z) (func text : string) : string :=
  "[" +:+ label +:+ "][" +:+ base +:+ ":" +:+ fmt_int line +:+ " " +:+ func
      +:+ "()] " +:+ text +:+ nl.

(** ** The state *)

(** An event loop is known by its address. *)
Definition loop_id : Set := nat.

(** The one callback a source of this file ever carries. *)
Inductive callback : Set := cb_on_trace_event.

(** What [source.data] points to. *)
Inductive data_ptr : Set := ptr_debug_log.

(** The one flag of [enum spa_io] this file uses. *)
Inductive spa_io : Set := SPA_IO_IN.

(** [struct spa_source], the fields [do_set_loop] fills in; [src_loop] is
    written by the event loop when the source is added to it. *)
Record spa_source : Set := mk_source {
  src_loop : option loop_id;
  src_func : option callback;
  src_data : option data_ptr;
  src_fd : Z;
  src_mask : list spa_io;
  src_rmask : list spa_io
}.

(** [struct debug_log]; of the embedded [struct spa_log] only [level] is
    data, its three function pointers are [do_log], [do_logv] and
    [do_set_loop] throughout. *)
Record debug_log : Set := mk_debug_log {
  log_level : spa_log_level;
  trace_rb : spa_ringbuffer;
  trace_data : list byte;
  have_source : bool;
  source : spa_source
}.

(** A call that leaves this file. *)
Inductive event : Set :=
| EvRemoveSource (loop : loop_id) (fd : Z)  (* spa_loop_remove_source *)
| EvClose (fd : Z)                          (* close *)
| EvEventfd (fd : Z)                        (* eventfd, with what it returned *)
| EvAddSource (loop : loop_id) (fd : Z)     (* spa_loop_add_source *)
| EvWrite (fd : Z) (count : Z)              (* write of a uint64_t *)
| EvRead (fd : Z).                          (* read of a uint64_t *)

(** The globals of [log.c] and the streams and calls they act on. *)
Record world : Set := mk_world {
  pw_log_level : spa_log_level;
  log : debug_log;
  stdout : list string;   (* one entry per [fputs] *)
  stderr : list byte;     (* the bytes written, in order *)
  sys : list event        (* the outside calls, in order *)
}.

Definition set_log (w : world) (l : debug_log) : world :=
  mk_world (pw_log_level w) l (stdout w) (stderr w) (sys w).

Definition emit_sys (w : world) (es : list event) : world :=
  mk_world (pw_log_level w) (log w) (stdout w) (stderr w) (sys w ++ es).

Definition emit_stderr (w : world) (bs : list byte) : world :=
  mk_world (pw_log_level w) (log w) (stdout w) (stderr w ++ bs) (sys w).

(** [fputs(s, stdout)]. *)
Definition fputs_stdout (w : world) (s : string) : world :=
  mk_world (pw_log_level w) (log w) (stdout w ++ [s]) (stderr w) (sys w).

(** The static initialiser of [log]: the ring is
    [{0, 0, TRACE_BUFFER, TRACE_BUFFER - 1}], everything not named is
    zero. *)
Definition log_init : debug_log :=
  mk_debug_log DEFAULT_LOG_LEVEL
    (mk_rb 0 0 TRACE_BUFFER (TRACE_BUFFER - 1))
    (replicate (Z.to_nat TRACE_BUFFER) NUL)
    false
    (mk_source None None None 0 [] []).

Definition world_init : world :=
  mk_world DEFAULT_LOG_LEVEL log_init [] [] [].

(** Modelled from the spec: the event-loop collaborator ([spa/loop.h] and
    the loop implementation are not among the sources). "registering a
    readable-descriptor source" and "unregistering a source": the loops
    the source is registered with, after the calls [es]. *)
Definition registered_step (reg : list loop_id) (e : event) : list loop_id :=
  match e with
  | EvAddSource lp _ => reg ++ [lp]
  | EvRemoveSource lp _ => filter (λ x, x ≠ lp) reg
  | _ => reg
  end.

Definition registered (es : list event) : list loop_id :=
  foldl registered_step [] es.

(** ** [do_logv] *)

(** [levels[level]]. *)
Definition levels_at (level : Z) : outcome string :=
  match levels !! Z.to_nat level with
  | Some s => if decide (0 ≤ level) then Done s else Undefined OutOfBounds
  | None => Undefined OutOfBounds
  end.

(** [msg] is what the format and its arguments expand to; [vsnprintf]
    keeps the part of it that fits [text]. *)
Definition do_logv (level : spa_log_level) (file : string) (line : Z)
    (func msg : string) (w : world) : outcome world :=
  let l := log w in
  let text := fst (snprintf 1024 msg) in
  let do_trace := bool_decide (level = SPA_LOG_LEVEL_TRACE) && have_source l in
  let level := if do_trace then level_num level + 1 else level_num level in
  label ← levels_at level;
  base ← ptr_succ (strrchr file "/");
  let '(location, size) := snprintf 1024 (format_location label base line func text) in
  if do_trace then
    let index := snd (spa_ringbuffer_get_write_index (trace_rb l)) in
    data ← spa_ringbuffer_write_data (trace_rb l) (trace_data l)
              (Z.land index (rb_mask (trace_rb l))) (c_array location) (wrap32 size);
    let rb := spa_ringbuffer_write_update (trace_rb l) (index + size) in
    Done (emit_sys
            (set_log w (mk_debug_log (log_level l) rb data (have_source l) (source l)))
            [EvWrite (src_fd (source l)) 1])
  else
    Done (fputs_stdout w location).

(** [do_log] is [do_logv] with the arguments collected in a [va_list]. *)
Definition do_log := do_logv.

(** ** [on_trace_event] *)

(** What [read] on the wakeup descriptor gave: the eight bytes, or an
    error whose [strerror] text is carried along. *)
Inductive read_result : Set :=
| ReadOk
| ReadFailed (strerror : string).

(** The body of the [while] loop, entered with [avail] and [index] as
    [spa_ringbuffer_get_read_index] returned them. *)
Definition drain_body (avail index : Z) (w : world) : outcome world :=
  let l := log w in
  let rb := trace_rb l in
  let '(w, index, avail) :=
    if rb_size rb <? wrap32 avail then
      (emit_stderr w (list_byte_of_string
                        (nl +:+ "** trace overflow ** " +:+ fmt_int avail +:+ nl)),
       wrap32 (index + wrap32 (wrap32 avail - rb_size rb)),
       to_int32 (rb_size rb))
    else (w, index, avail) in
  let offset := Z.land index (rb_mask rb) in
  let first := SPA_MIN (wrap32 avail) (wrap32 (rb_size rb - offset)) in
  out1 ← mem_read (trace_data l) offset first;
  let w := emit_stderr w out1 in
  w ← (if first <? wrap32 avail then
         out2 ← mem_read (trace_data l) 0 (wrap32 (wrap32 avail - first));
         Done (emit_stderr w out2)
       else Done w);
  Done (set_log w (mk_debug_log (log_level l)
                     (spa_ringbuffer_read_update rb (index + avail))
                     (trace_data l) (have_source l) (source l))).

(** The [while] loop; [fuel] bounds the number of iterations. *)
Fixpoint drain (fuel : nat) (w : world) : outcome world :=
  let '(avail, index) := spa_ringbuffer_get_read_index (trace_rb (log w)) in
  if 0 <? avail then
    match fuel with
    | O => OutOfFuel
    | S fuel' => w' ← drain_body avail index w; drain fuel' w'
    end
  else Done w.

Definition on_trace_event (fuel : nat) (rd : read_result) (w : world) : outcome world :=
  let w := emit_sys w [EvRead (src_fd (source (log w)))] in
  let w :=
    match rd with
    | ReadOk => w
    | ReadFailed strerror =>
        emit_stderr w (list_byte_of_string ("failed to read event fd: " +:+ strerror))
    end in
  drain fuel w.

(** ** [do_set_loop] *)

(** [efd] is what [eventfd] returns if it is called: a descriptor, or
    [-1]. *)
Definition do_set_loop (loop : option loop_id) (efd : Z) (w : world) : outcome world :=
  w ← (let l := log w in
       if have_source l then
         lp ← (match src_loop (source l) with
               | Some lp => Done lp
               | None => Undefined NullPointer
               end);
         Done (set_log
                 (emit_sys w [EvRemoveSource lp (src_fd (source l));
                              EvClose (src_fd (source l))])
                 (mk_debug_log (log_level l) (trace_rb l) (trace_data l) false (source l)))
       else Done w);
  match loop with
  | Some lp =>
      let l := log w in
      Done (set_log
              (emit_sys w [EvEventfd efd; EvAddSource lp efd])
              (mk_debug_log (log_level l) (trace_rb l) (trace_data l) true
                 (mk_source (Some lp) (Some cb_on_trace_event) (Some ptr_debug_log)
                    efd [SPA_IO_IN] [])))
  | None => Done w
  end.

(** ** The public functions *)

(** Modelled from the spec: the macro [pw_log_level_enabled] of
    [pipewire/client/log.h], which is not among the sources. "A call is
    emitted only if its level is at or below (more severe than or equal
    to) the current threshold." *)
Definition pw_log_level_enabled (w : world) (lev : spa_log_level) : bool :=
  level_num lev <=? level_num (pw_log_level w).

Definition pw_log_get (w : world) : debug_log := log w.

Definition pw_log_set_level (level : spa_log_level) (w : world) : world :=
  let l := log w in
  mk_world level
    (mk_debug_log level (trace_rb l) (trace_data l) (have_source l) (source l))
    (stdout w) (stderr w) (sys w).

Definition pw_log_set_loop (loop : option loop_id) (efd : Z) (w : world) : outcome world :=
  do_set_loop loop efd w.

Definition pw_log_log (level : spa_log_level) (file : string) (line : Z)
    (func msg : string) (w : world) : outcome world :=
  if pw_log_level_enabled w level then do_logv level file line func msg w
  else Done w.

Definition pw_log_logv (level : spa_log_level) (file : string) (line : Z)
    (func msg : string) (w : world) : outcome world :=
  if pw_log_level_enabled w level then do_logv level file line func msg w
  else Done w.

(** ** Runs of the program *)

(** What the rest of the process and the event loop can do with the
    facility: the public functions, the function pointers [do_log] and
    [do_logv] that [pw_log_get] hands out, and the dispatch of the
    callback. *)
Inductive op : Set :=
| OpSetLevel (level : spa_log_level)
| OpSetLoop (loop : option loop_id) (efd : Z)
| OpLog (level : spa_log_level) (file : string) (line : Z) (func msg : string)
| OpLogv (level : spa_log_level) (file : string) (line : Z) (func msg : string)
| OpDoLogv (level : spa_log_level) (file : string) (line : Z) (func msg : string)
| OpTraceEvent (fuel : nat) (rd : read_result).

Definition run_op (o : op) (w : world) : outcome world :=
  match o with
  | OpSetLevel level => Done (pw_log_set_level level w)
  | OpSetLoop loop efd => pw_log_set_loop loop efd w
  | OpLog level file line func msg => pw_log_log level file line func msg w
  | OpLogv level file line func msg => pw_log_logv level file line func msg w
  | OpDoLogv level file line func msg => do_logv level file line func msg w
  | OpTraceEvent fuel rd => on_trace_event fuel rd w
  end.

Fixpoint run_ops (os : list op) (w : world) : outcome world :=
  match os with
  | [] => Done w
  | o :: os' => w' ← run_op o w; run_ops os' w'
  end.

Inductive reachable : world → Prop :=
| reachable_init : reachable world_init
| reachable_step w o w' : reachable w → run_op o w = Done w' → reachable w'.

(** ** The ring as a window on the stream of published bytes *)

(** The shape every ring of the program has: a power-of-two capacity, the
    matching mask and storage, cursors that are [uint32_t] values. *)
Definition ring_wf (l : debug_log) : Prop :=
  ∃ k, 0 ≤ k ≤ 31 ∧
       rb_size (trace_rb l) = 2 ^ k ∧
       rb_mask (trace_rb l) = 2 ^ k - 1 ∧
       Z.of_nat (length (trace_data l)) = rb_size (trace_rb l) ∧
       0 ≤ rb_readindex (trace_rb l) < 2 ^ 32 ∧
       0 ≤ rb_writeindex (trace_rb l) < 2 ^ 32.

Section ring_lists.
Context {A : Type}.
Implicit Types data bs : list A.

(** The storage read cyclically from physical offset [o]: when [o] is
    the offset of the write cursor, the oldest byte comes first. *)
Definition ring_view data (o : nat) : list A := drop o data ++ take o data.

(** [bs] copied in at offset [o], in two pieces when it straddles the
    end. *)
Definition ring_put data (o : nat) bs : list A :=
  let first := (length bs `min` (length data - o))%nat in
  let d1 := take o data ++ take first bs ++ drop (o + first) data in
  if (first <? length bs)%nat
  then drop first bs ++ drop (length bs - first) d1
  else d1.

(** [a] bytes read from offset [off], in two pieces when they straddle
    the end. *)
Definition ring_get data (off a : nat) : list A :=
  let first := (a `min` (length data - off))%nat in
  take first (drop off data) ++ take (a - first) data.
End ring_lists.

(** The window of a facility: its storage seen from the write cursor. *)
Definition ring_window (l : debug_log) : list byte :=
  ring_view (trace_data l)
    (Z.to_nat (rb_writeindex (trace_rb l) mod rb_size (trace_rb l))).

(** The unread byte count the consumer computes. *)
Definition unread (w : world) : Z :=
  fst (spa_ringbuffer_get_read_index (trace_rb (log w))).

(** The bytes of the report [fprintf(stderr, "\n** trace overflow ** %d\n", n)]. *)
Definition overflow_report (n : Z) : list byte :=
  list_byte_of_string (nl +:+ "** trace overflow ** " +:+ fmt_int n +:+ nl).

(** A log call and the line it renders under a given label index. *)
Record call : Set := mk_call {
  c_file : string;
  c_line : Z;
  c_func : string;
  c_msg : string
}.

(** [file] has a ['/'] and the characters after the last one are [base]. *)
Definition basename_is (file base : string) : Prop :=
  ∃ c, strrchr file "/" = Some (String c base).

(** What [snprintf] makes of a call: the line in full, for the label
    [label] and the basename [base]. *)
Definition rendered (label base : string) (c : call) : string :=
  format_location label base (c_line c) (c_func c) (fst (snprintf 1024 (c_msg c))).

(** The bytes the trace branch copies out of [location] for a call. *)
Definition trace_record (base : string) (c : call) : list byte :=
  let '(location, size) := snprintf 1024 (rendered "*T*" base c) in
  take (Z.to_nat (wrap32 size)) (c_array location).

(** The world after a record [bs] went through the trace branch. *)
Definition trace_appended (bs : list byte) (w : world) : world :=
  let l := log w in
  let rb := trace_rb l in
  emit_sys
    (set_log w
       (mk_debug_log (log_level l)
          (mk_rb (rb_readindex rb)
             (wrap32 (rb_writeindex rb + Z.of_nat (length bs)))
             (rb_size rb) (rb_mask rb))
          (ring_put (trace_data l)
             (Z.to_nat (rb_writeindex rb mod rb_size rb)) bs)
          (have_source l) (source l)))
    [EvWrite (src_fd (source l)) 1].

(** The label [levels] holds for a level. *)
Definition level_label (level : spa_log_level) : string :=
  match level with
  | SPA_LOG_LEVEL_NONE => "-"
  | SPA_LOG_LEVEL_ERROR => "E"
  | SPA_LOG_LEVEL_WARN => "W"
  | SPA_LOG_LEVEL_INFO => "I"
  | SPA_LOG_LEVEL_DEBUG => "D"
  | SPA_LOG_LEVEL_TRACE => "T"
  end.

(** The world after one pass of the consumer's loop: the overflow report
    if more than the capacity is unread, then the newest unread bytes the
    window still holds, and the read cursor moved up to the write cursor. *)
Definition drained (w : world) : world :=
  let l := log w in
  let rb := trace_rb l in
  let avail := unread w in
  set_log
    (emit_stderr w
       ((if rb_size rb <? avail then overflow_report avail else [])
          ++ drop (Z.to_nat (rb_size rb - Z.min avail (rb_size rb))) (ring_window l)))
    (mk_debug_log (log_level l)
       (mk_rb (rb_writeindex rb) (rb_writeindex rb) (rb_size rb) (rb_mask rb))
       (trace_data l) (have_source l) (source l)).

(** The world once [on_trace_event] has read the wakeup descriptor. *)
Definition after_read (rd : read_result) (w : world) : world :=
  let w := emit_sys w [EvRead (src_fd (source (log w)))] in
  match rd with
  | ReadOk => w
  | ReadFailed strerror =>
      emit_stderr w (list_byte_of_string ("failed to read event fd: " +:+ strerror))
  end.

(** A trace-level call of [pw_log_log]. *)
Definition trace_op (c : call) : op :=
  OpLog SPA_LOG_LEVEL_TRACE (c_file c) (c_line c) (c_func c) (c_msg c).

(** The record a call leaves in the ring. *)
Definition record_of (c : call) : list byte :=
  match strrchr (c_file c) "/" with
  | Some (String _ base) => trace_record base c
  | _ => []
  end.

(** The stream of bytes a sequence of trace calls publishes. *)
Fixpoint published (cs : list call) : list byte :=
  match cs with
  | [] => []
  | c :: cs' => record_of c ++ published cs'
  end.

(** [s] has the character [c] somewhere. *)
Fixpoint contains (c : ascii) (s : string) : bool :=
  match s with
  | EmptyString => false
  | String a s' => bool_decide (a = c) || contains c s'
  end.

(** What holds of the facility in every state the program reaches. *)
Record invariant (w : world) : Prop := mk_invariant {
  inv_level : pw_log_level w = log_level (log w);
  inv_ring : ring_wf (log w);
  inv_size : rb_size (trace_rb (log w)) = TRACE_BUFFER;
  inv_prefix : ∀ n, (length (registered (take n (sys w))) ≤ 1)%nat;
  inv_registered :
    if have_source (log w)
    then ∃ lp, src_loop (source (log w)) = Some lp ∧ registered (sys w) = [lp]
    else registered (sys w) = []
}.

(** The two halves of [do_set_loop]: the detach from the loop [old] the
    source is on, and the attach to [lp] with the descriptor [efd]. *)
Definition detach (old : loop_id) (w : world) : world :=
  let l := log w in
  set_log
    (emit_sys w [EvRemoveSource old (src_fd (source l)); EvClose (src_fd (source l))])
    (mk_debug_log (log_level l) (trace_rb l) (trace_data l) false (source l)).

Definition attach (lp : loop_id) (efd : Z) (w : world) : world :=
  let l := log w in
  set_log
    (emit_sys w [EvEventfd efd; EvAddSource lp efd])
    (mk_debug_log (log_level l) (trace_rb l) (trace_data l) true
       (mk_source (Some lp) (Some cb_on_trace_event) (Some ptr_debug_log)
          efd [SPA_IO_IN] [])).

(** No call of the event loop. *)
Definition quiet (e : event) : Prop :=
  match e with
  | EvAddSource _ _ | EvRemoveSource _ _ => False
  | _ => True
  end.

(** ** Some states and calls of the program *)

(** The threshold raised to trace, the facility not attached. *)
Definition world_tracing : world :=
  pw_log_set_level SPA_LOG_LEVEL_TRACE world_init.

(** Then attached to the loop at address 1, [eventfd] having returned 3. *)
Definition world_armed : world := attach 1%nat 3 world_tracing.

(** A message of [n] characters. *)
Definition long_msg (n : nat) : string := string_of_list_ascii (replicate n "x"%char).

(** A call whose line has 1020 characters, and one whose line would have
    1043. *)
Definition call_1020 : call := mk_call "src/log.c" 7 "f" (long_msg 1000).
Definition call_1043 : call := mk_call "src/log.c" 7 "f" (long_msg 1023).

(** The armed facility after one trace call, after two, and after
    seventeen: 17 * 1020 bytes, more than the ring holds. *)
Definition world_one : world := trace_appended (record_of call_1020) world_armed.
Definition world_two : world := trace_appended (record_of call_1020) world_one.
Definition world_overrun : world :=
  Nat.iter 17 (trace_appended (record_of call_1020)) world_armed.

(** Reduce the projections of the records of the state, and nothing else. *)
Ltac fields :=
  cbn [pw_log_level log stdout stderr sys log_level trace_rb trace_data
       have_source source rb_readindex rb_writeindex rb_size rb_mask
       src_loop src_func src_data src_fd src_mask src_rmask] in *.

(** ** Descriptors, rounds and runs of calls *)









(** A call of [pw_log_log] at the level given with it. *)
Definition log_op (lc : spa_log_level * call) : op :=
  OpLog lc.1 (c_file lc.2) (c_line lc.2) (c_func lc.2) (c_msg lc.2).

(** What the synchronous branch prints for a call under the threshold
    [threshold]: its line, or nothing when the call is filtered. *)
Definition printed_by (threshold : spa_log_level) (lc : spa_log_level * call)
    : list string :=
  if level_num lc.1 <=? level_num threshold then
    match strrchr (c_file lc.2) "/" with
    | Some (String _ base) =>
        [fst (snprintf 1024 (rendered (level_label lc.1) base lc.2))]
    | _ => []
    end
  else [].

Fixpoint printed_run (threshold : spa_log_level)
    (lcs : list (spa_log_level * call)) : list string :=
  match lcs with
  | [] => []
  | lc :: lcs' => printed_by threshold lc ++ printed_run threshold lcs'
  end.

(** A facility whose producer is [2 ^ 31] bytes ahead of its consumer. *)
Definition world_far_behind : world :=
  mk_world SPA_LOG_LEVEL_TRACE
    (mk_debug_log SPA_LOG_LEVEL_TRACE
       (mk_rb 0 (2 ^ 31) TRACE_BUFFER (TRACE_BUFFER - 1))
       (replicate (Z.to_nat TRACE_BUFFER) NUL)
       true
       (mk_source (Some 1%nat) (Some cb_on_trace_event) (Some ptr_debug_log)
          3 [SPA_IO_IN] []))
    [] [] [EvEventfd 3; EvAddSource 1%nat 3].

(** A call whose line has exactly 1024 characters. *)
Definition call_1024 : call := mk_call "src/log.c" 7 "f" (long_msg 1004).

(** * Facts *)

(** ** Machine integers *)

Lemma wrap32_small x : 0 ≤ x < 2 ^ 32 → wrap32 x = x.
Proof. intros. unfold wrap32. by apply Z.mod_small. Qed.

Lemma wrap32_range x : 0 ≤ wrap32 x < 2 ^ 32.
Proof. unfold wrap32. apply Z.mod_pos_bound. lia. Qed.

Lemma to_int32_small x : 0 ≤ x < 2 ^ 31 → to_int32 x = x.
Proof.
  intros. unfold to_int32. rewrite Z.mod_small; lia.
Qed.

(** A positive [int32_t] made from a [uint32_t] is that very number. *)
Lemma to_int32_pos x :
  0 ≤ x < 2 ^ 32 → 0 < to_int32 x → to_int32 x = x ∧ x < 2 ^ 31.
Proof.
  intros Hx. unfold to_int32.
  destruct (decide (x < 2 ^ 31)) as [Hlt|Hge].
  - rewrite Z.mod_small by lia. lia.
  - replace (x + 2 ^ 31) with (x - 2 ^ 31 + 1 * 2 ^ 32) by lia.
    rewrite Z.mod_add by lia. rewrite Z.mod_small by lia. lia.
Qed.

(** Cursors differ by the unread count, modulo [2 ^ 32]. *)
Lemma wrap32_sub_add r w a :
  0 ≤ w < 2 ^ 32 → wrap32 (w - r) = a → wrap32 (r + a) = w.
Proof.
  unfold wrap32. intros Hw <-.
  rewrite Zplus_mod_idemp_r. replace (r + (w - r)) with w by lia.
  by apply Z.mod_small.
Qed.

Lemma pow2_divides_32 k : 0 ≤ k ≤ 31 → (2 ^ k | 2 ^ 32).
Proof.
  intros. exists (2 ^ (32 - k)). rewrite <- Z.pow_add_r by lia. f_equal. lia.
Qed.

Lemma wrap32_mod_size k x : 0 ≤ k ≤ 31 → wrap32 x mod 2 ^ k = x mod 2 ^ k.
Proof. intros. unfold wrap32. apply Z.mod_mod_divide. by apply pow2_divides_32. Qed.

Lemma land_mask k x : 0 ≤ k → Z.land x (2 ^ k - 1) = x mod 2 ^ k.
Proof.
  intros. rewrite <- Z.land_ones by done. f_equal.
  rewrite Z.ones_equiv. lia.
Qed.

Lemma pow2_size_range k : 0 ≤ k ≤ 31 → 0 < 2 ^ k ≤ 2 ^ 31.
Proof.
  intros. split; [apply Z.pow_pos_nonneg; lia|].
  apply Z.pow_le_mono_r; lia.
Qed.

(** Two offsets below [n] that agree modulo [n] up to one wrap. *)
Lemma mod_offset_cases n x y d :
  0 < n → 0 ≤ d ≤ n → (x + d) mod n = y mod n →
  x mod n + d = y mod n ∨ x mod n + d = y mod n + n.
Proof.
  intros Hn Hd Heq.
  pose proof (Z.mod_pos_bound x n Hn). pose proof (Z.mod_pos_bound y n Hn).
  rewrite <- Zplus_mod_idemp_l in Heq.
  destruct (decide (x mod n + d < n)) as [Hlt|Hge].
  - rewrite Z.mod_small in Heq by lia. lia.
  - replace (x mod n + d) with (x mod n + d - n + 1 * n) in Heq by lia.
    rewrite Z.mod_add in Heq by lia. rewrite Z.mod_small in Heq by lia. lia.
Qed.

(** ** The storage as a cyclic list *)

Section ring_list_facts.
Context {A : Type}.
Implicit Types data bs : list A.

Lemma length_ring_view data o : length (ring_view data o) = length data.
Proof. unfold ring_view. rewrite length_app, length_drop, length_take. lia. Qed.

Lemma length_ring_put data o bs :
  (o < length data)%nat → (length bs ≤ length data)%nat →
  length (ring_put data o bs) = length data.
Proof.
  intros Ho Hb. unfold ring_put.
  destruct (Nat.ltb_spec (length bs `min` (length data - o))%nat (length bs));
    rewrite ?length_app, ?length_drop, ?length_app, ?length_take, ?length_drop; lia.
Qed.

Lemma ring_put_view data o bs o' :
  (o < length data)%nat → (length bs ≤ length data)%nat →
  (o' < length data)%nat →
  (o + length bs = o' ∨ o + length bs = o' + length data)%nat →
  ring_view (ring_put data o bs) o' = drop (length bs) (ring_view data o ++ bs).
Proof.
  intros Ho Hb Ho' Hcase. unfold ring_view, ring_put.
  set (n := length data) in *. set (b := length bs) in *.
  destruct (Nat.ltb_spec (b `min` (n - o))%nat b) as [Hw|Hw].
  - (* the record wraps *)
    assert (Hf : (b `min` (n - o) = n - o)%nat) by lia. rewrite Hf.
    assert (o' = o + b - n)%nat as -> by lia.
    replace (o + (n - o))%nat with n by lia.
    rewrite (drop_ge data n) by (subst n; lia). rewrite app_nil_r.
    replace (b - (n - o))%nat with (o + b - n)%nat by lia.
    assert (Hlen2 : length (drop (n - o) bs) = (o + b - n)%nat)
      by (rewrite length_drop; subst b; lia).
    rewrite drop_app_length' by done.
    rewrite take_app_length' by done.
    rewrite <- !app_assoc.
    rewrite (drop_app_ge (drop o data)) by (rewrite length_drop; lia).
    rewrite length_drop. fold n.
    replace (b - (n - o))%nat with (o + b - n)%nat by lia.
    rewrite !drop_app_le by (rewrite length_take; lia).
    rewrite <- !app_assoc. f_equal. by rewrite take_drop.
  - (* the record fits before the end of the storage *)
    assert (Hf : (b `min` (n - o) = b)%nat) by lia. rewrite Hf.
    rewrite (take_ge bs b) by (subst b; lia).
    destruct Hcase as [Hc|Hc].
    + subst o'.
      rewrite !app_assoc.
      rewrite drop_app_length', take_app_length'
        by (rewrite length_app, length_take; subst b; lia).
      rewrite <- !app_assoc.
      rewrite (drop_app_le (drop o data)) by (rewrite length_drop; lia).
      by rewrite drop_drop.
    + assert (o' = 0)%nat as -> by lia. rewrite drop_0, take_0, app_nil_r.
      rewrite drop_ge by (subst n; lia). rewrite app_nil_r, <- app_assoc.
      rewrite drop_app_length' by (rewrite length_drop; lia).
      done.
Qed.

Lemma ring_get_view data o off a :
  (o < length data)%nat → (0 < a ≤ length data)%nat →
  (off < length data)%nat →
  (off + a = o ∨ off + a = o + length data)%nat →
  ring_get data off a = drop (length data - a) (ring_view data o).
Proof.
  intros Ho Ha Hoff Hcase. unfold ring_get, ring_view.
  set (n := length data) in *.
  destruct (decide (off + a ≤ n)%nat) as [Hfit|Hwrap].
  - replace (a `min` (n - off))%nat with a by lia.
    replace (a - a)%nat with 0%nat by lia. rewrite take_0, app_nil_r.
    destruct Hcase as [Hc|Hc].
    + subst o.
      rewrite drop_app_ge by (rewrite length_drop; lia).
      rewrite length_drop. fold n.
      replace (n - a - (n - (off + a)))%nat with off by lia.
      by rewrite take_drop_commute.
    + assert (o = 0)%nat as -> by lia. rewrite drop_0, take_0, app_nil_r.
      replace (n - a)%nat with off by lia.
      apply take_ge. rewrite length_drop. lia.
  - assert (o = off + a - n)%nat as -> by lia.
    replace (a `min` (n - off))%nat with (n - off)%nat by lia.
    rewrite (take_ge (drop off data)) by (rewrite length_drop; lia).
    rewrite drop_app_le by (rewrite length_drop; lia).
    rewrite drop_drop. f_equal; f_equal; lia.
Qed.
End ring_list_facts.

(** ** Memory *)

Lemma mem_read_ok buf off n :
  0 ≤ off → 0 ≤ n → off + n ≤ Z.of_nat (length buf) →
  mem_read buf off n = Done (take (Z.to_nat n) (drop (Z.to_nat off) buf)).
Proof. intros. unfold mem_read. by rewrite decide_True. Qed.

Lemma memcpy_ok buf off src :
  0 ≤ off → off + Z.of_nat (length src) ≤ Z.of_nat (length buf) →
  memcpy buf off src =
    Done (take (Z.to_nat off) buf ++ src ++ drop (Z.to_nat off + length src) buf).
Proof. intros. unfold memcpy. by rewrite decide_True. Qed.

Lemma bind_Done {A B} (a : A) (k : A → outcome B) : (Done a ≫= k) = k a.
Proof. reflexivity. Qed.

(** ** The producer's copy *)

Lemma write_data_wf rb data offset src len :
  Z.of_nat (length data) = rb_size rb →
  rb_size rb < 2 ^ 32 →
  0 ≤ offset < rb_size rb →
  0 ≤ len ≤ rb_size rb →
  len ≤ Z.of_nat (length src) →
  spa_ringbuffer_write_data rb data offset src len =
    Done (ring_put data (Z.to_nat offset) (take (Z.to_nat len) src)).
Proof.
  intros Hdata Hsz Hoff Hlen Hsrc.
  unfold spa_ringbuffer_write_data, SPA_MIN, ring_put. cbv zeta.
  rewrite wrap32_small by lia.
  assert (Hbs : length (take (Z.to_nat len) src) = Z.to_nat len)
    by (rewrite length_take; lia).
  rewrite Hbs.
  destruct (Z.ltb_spec len (rb_size rb - offset)) as [Hfit|Hwrap]; cbv iota.
  - rewrite (mem_read_ok src 0 len) by lia. rewrite bind_Done, drop_0.
    rewrite memcpy_ok by (rewrite ?Hbs; lia). rewrite bind_Done, Hbs.
    rewrite Z.ltb_irrefl.
    replace (Z.to_nat len `min` (length data - Z.to_nat offset))%nat
      with (Z.to_nat len) by lia.
    rewrite Nat.ltb_irrefl. by rewrite take_take, Nat.min_id.
  - set (first := rb_size rb - offset) in *.
    rewrite (mem_read_ok src 0 first) by lia. rewrite bind_Done, drop_0.
    assert (Hs1 : length (take (Z.to_nat first) src) = Z.to_nat first)
      by (rewrite length_take; lia).
    rewrite memcpy_ok by (rewrite ?Hs1; lia). rewrite bind_Done, Hs1.
    replace (Z.to_nat len `min` (length data - Z.to_nat offset))%nat
      with (Z.to_nat first) by lia.
    rewrite take_take.
    replace (Z.to_nat first `min` Z.to_nat len)%nat with (Z.to_nat first) by lia.
    destruct (Z.ltb_spec first len) as [Hlt|Hge].
    + rewrite mem_read_ok by lia. rewrite bind_Done.
      assert (Hs2 : length (take (Z.to_nat (len - first)) (drop (Z.to_nat first) src))
                    = Z.to_nat (len - first))
        by (rewrite length_take, length_drop; lia).
      rewrite memcpy_ok; [|lia|].
      2:{ rewrite Hs2, !length_app, Hs1, length_take, length_drop. lia. }
      rewrite Hs2. change (Z.to_nat 0) with 0%nat. rewrite take_0, Nat.add_0_l.
      destruct (Nat.ltb_spec (Z.to_nat first) (Z.to_nat len)); [|lia].
      cbn [app]. f_equal. f_equal.
      * rewrite take_drop_commute. do 2 f_equal. lia.
      * f_equal. lia.
    + destruct (Nat.ltb_spec (Z.to_nat first) (Z.to_nat len)); [lia|]. done.
Qed.

(** ** Strings *)

Lemma length_list_byte_of_string s :
  length (list_byte_of_string s) = String.length s.
Proof.
  unfold list_byte_of_string. rewrite length_map.
  induction s as [|a s IH]; cbn; [done|]. by rewrite IH.
Qed.

Lemma length_substring_0 n s :
  String.length (substring 0 n s) = (n `min` String.length s)%nat.
Proof.
  revert n. induction s as [|a s IH]; intros [|n]; cbn; try done.
  by rewrite IH.
Qed.

Lemma length_c_array s : length (c_array s) = S (String.length s).
Proof.
  unfold c_array. rewrite length_app, length_list_byte_of_string. cbn. lia.
Qed.

(** The array [location] never holds more than its 1024 bytes. *)
Lemma length_location s :
  (length (c_array (fst (snprintf 1024 s))) ≤ 1024)%nat.
Proof.
  unfold snprintf. cbn [fst]. rewrite length_c_array, length_substring_0. lia.
Qed.

Lemma strrchr_Some_head s c r :
  strrchr s c = Some r → ∃ r', r = String c r'.
Proof.
  induction s as [|a s IH]; cbn; [done|].
  destruct (strrchr s c) as [r0|] eqn:E.
  - intros [= <-]. by apply IH.
  - case_decide; [|done]. intros [= <-]. subst a. by eexists.
Qed.

Lemma ptr_succ_Done p base :
  ptr_succ p = Done base ↔ ∃ c, p = Some (String c base).
Proof.
  split.
  - destruct p as [[|c r]|]; cbn; try done. intros [= ->]. by eexists.
  - by intros [c ->].
Qed.

(** ** [do_logv] *)

Lemma land_mask' l x :
  ring_wf l → Z.land x (rb_mask (trace_rb l)) = x mod rb_size (trace_rb l).
Proof.
  intros (k & Hk & -> & -> & _). apply land_mask. lia.
Qed.

Lemma levels_at_level level :
  levels_at (level_num level) = Done (level_label level).
Proof. by destruct level. Qed.

Lemma levels_at_trace_armed :
  levels_at (level_num SPA_LOG_LEVEL_TRACE + 1) = Done "*T*"%string.
Proof. reflexivity. Qed.

(** Without a ['/'] in [file] the formatter adds one to a null pointer. *)
Lemma do_logv_null level file line func msg w :
  strrchr file "/" = None →
  do_logv level file line func msg w = Undefined NullPointer.
Proof.
  intros Hnone. unfold do_logv. cbv zeta.
  destruct (bool_decide (level = SPA_LOG_LEVEL_TRACE) && have_source (log w)).
  - destruct level; rewrite Hnone; reflexivity.
  - rewrite levels_at_level, bind_Done. by rewrite Hnone.
Qed.

(** The synchronous branch: one [fputs] of the line, cut to what
    [location] holds. *)
Lemma do_logv_direct level file line func msg w base :
  bool_decide (level = SPA_LOG_LEVEL_TRACE) && have_source (log w) = false →
  basename_is file base →
  do_logv level file line func msg w =
    Done (fputs_stdout w
            (fst (snprintf 1024
                    (rendered (level_label level) base (mk_call file line func msg))))).
Proof.
  intros Hdirect [c Hbase]. unfold do_logv. cbv zeta. rewrite Hdirect.
  rewrite levels_at_level, bind_Done, Hbase. reflexivity.
Qed.

Lemma mem_read_Done_inv buf off n x :
  mem_read buf off n = Done x → off + n ≤ Z.of_nat (length buf).
Proof. unfold mem_read. case_decide; [lia|done]. Qed.

Lemma write_data_Done_inv rb data offset src len d :
  0 ≤ len →
  spa_ringbuffer_write_data rb data offset src len = Done d →
  len ≤ Z.of_nat (length src).
Proof.
  intros Hlen. unfold spa_ringbuffer_write_data, SPA_MIN. cbv zeta.
  destruct (Z.ltb_spec len (wrap32 (rb_size rb - offset))) as [Hfit|Hwrap];
    cbv iota.
  - destruct (mem_read src 0 len) as [s1| |] eqn:E1; try done.
    apply mem_read_Done_inv in E1. lia.
  - set (first := wrap32 (rb_size rb - offset)) in *.
    destruct (mem_read src 0 first) as [s1| |] eqn:E1; try done.
    apply mem_read_Done_inv in E1. rewrite bind_Done.
    destruct (memcpy data offset s1) as [b1| |]; try done. rewrite bind_Done.
    destruct (Z.ltb_spec first len) as [Hlt|Hge]; [|lia].
    destruct (mem_read src first (len - first)) as [s2| |] eqn:E2; try done.
    apply mem_read_Done_inv in E2. lia.
Qed.

(** The trace branch: the record is copied into the ring, the write cursor
    published and the descriptor written. *)
Lemma do_logv_trace file line func msg w base :
  have_source (log w) = true →
  ring_wf (log w) →
  1024 ≤ rb_size (trace_rb (log w)) →
  basename_is file base →
  let c := mk_call file line func msg in
  wrap32 (snd (snprintf 1024 (rendered "*T*" base c))) ≤ 1024 →
  do_logv SPA_LOG_LEVEL_TRACE file line func msg w =
    Done (trace_appended (trace_record base c) w).
Proof.
  intros Harmed Hwf Hbig [c0 Hbase] c Hfit.
  pose proof Hwf as (k & Hk & Hsize & Hmask & Hdata & Hr & Hw).
  unfold do_logv. cbv zeta. rewrite Harmed.
  rewrite bool_decide_eq_true_2 by done. cbn [andb].
  rewrite levels_at_trace_armed, bind_Done, Hbase. cbn [ptr_succ]. rewrite bind_Done.
  change (format_location "*T*" base line func (snprintf 1024 msg).1)
    with (rendered "*T*" base c).
  unfold trace_record, trace_appended.
  destruct (snprintf 1024 (rendered "*T*" base c)) as [location size] eqn:Hsn.
  cbn [snd] in Hfit.
  assert (Hsz : size = Z.of_nat (String.length (rendered "*T*" base c)))
    by (unfold snprintf in Hsn; congruence).
  assert (Hloc : location = fst (snprintf 1024 (rendered "*T*" base c)))
    by (by rewrite Hsn).
  pose proof (wrap32_range size) as Hwr.
  assert (Hsrc : wrap32 size ≤ Z.of_nat (length (c_array location))).
  { rewrite length_c_array. subst location. unfold snprintf. cbn [fst].
    rewrite length_substring_0.
    destruct (decide (String.length (rendered "*T*" base c) < 1023)%nat).
    - rewrite wrap32_small in * by lia. lia.
    - lia. }
  rewrite land_mask' by done.
  rewrite write_data_wf; [|lia|pose proof (pow2_size_range k Hk); lia| |lia|done].
  2:{ rewrite Hsize. apply Z.mod_pos_bound. pose proof (pow2_size_range k Hk). lia. }
  rewrite bind_Done. cbn [snd spa_ringbuffer_get_write_index].
  assert (Hlen : length (take (Z.to_nat (wrap32 size)) (c_array location))
                 = Z.to_nat (wrap32 size)) by (rewrite length_take; lia).
  rewrite Hlen, Z2Nat.id by lia.
  unfold spa_ringbuffer_write_update, wrap32.
  rewrite Zplus_mod_idemp_r. by rewrite Harmed, Hsize, Hmask.
Qed.

(** ** The consumer *)

Lemma mod_sub_size x n : 0 < n → (x - n) mod n = x mod n.
Proof.
  intros. replace (x - n) with (x + (-1) * n) by lia. by rewrite Z.mod_add by lia.
Qed.

(** The two [fwrite]s of an iteration read [avail] bytes of the storage,
    cyclically, from [offset]. *)
Lemma consumer_reads data size offset avail :
  Z.of_nat (length data) = size → size < 2 ^ 32 →
  0 ≤ offset < size → 0 < avail ≤ size →
  let first := SPA_MIN (wrap32 avail) (wrap32 (size - offset)) in
  ∃ out1 out2,
    mem_read data offset first = Done out1 ∧
    (if first <? wrap32 avail
     then mem_read data 0 (wrap32 (wrap32 avail - first)) = Done out2
     else out2 = []) ∧
    out1 ++ out2 = ring_get data (Z.to_nat offset) (Z.to_nat avail).
Proof.
  intros Hdata Hsz Hoff Ha first. subst first. unfold SPA_MIN.
  rewrite !wrap32_small by lia. unfold ring_get.
  destruct (Z.ltb_spec avail (size - offset)) as [Hfit|Hwrap].
  - eexists _, []. rewrite mem_read_ok by lia. rewrite Z.ltb_irrefl.
    split_and!; [done..|].
    replace (Z.to_nat avail `min` (length data - Z.to_nat offset))%nat
      with (Z.to_nat avail) by lia.
    by rewrite Nat.sub_diag, take_0.
  - rewrite mem_read_ok by lia.
    replace (Z.to_nat avail `min` (length data - Z.to_nat offset))%nat
      with (Z.to_nat (size - offset)) by lia.
    destruct (Z.ltb_spec (size - offset) avail) as [Hlt|Hge].
    + rewrite wrap32_small by lia. rewrite mem_read_ok by lia.
      eexists _, _. split_and!; [done..|]. rewrite drop_0. do 2 f_equal. lia.
    + eexists _, []. split_and!; [done..|].
      replace (Z.to_nat avail - Z.to_nat (size - offset))%nat with 0%nat by lia.
      by rewrite take_0.
Qed.

Lemma unread_pos w :
  ring_wf (log w) → 0 < unread w →
  wrap32 (rb_writeindex (trace_rb (log w)) - rb_readindex (trace_rb (log w)))
    = unread w ∧ unread w < 2 ^ 31.
Proof.
  intros (k & Hk & Hsize & Hmask & Hdata & Hr & Hw).
  unfold unread, spa_ringbuffer_get_read_index. cbn [fst]. intros Hpos.
  apply to_int32_pos in Hpos as [-> ?]; [done|apply wrap32_range].
Qed.

(** One iteration of the loop, entered with a positive [avail]. *)
Lemma drain_body_wf w :
  ring_wf (log w) → 0 < unread w →
  drain_body (unread w) (rb_readindex (trace_rb (log w))) w = Done (drained w).
Proof.
  intros Hwf Hpos. pose proof (unread_pos w Hwf Hpos) as [Hu Hlt].
  pose proof Hwf as (k & Hk & Hsize & Hmask & Hdata & Hr & Hw).
  pose proof (pow2_size_range k Hk) as Hpow.
  set (a := unread w) in *.
  set (r := rb_readindex (trace_rb (log w))) in *.
  set (wi := rb_writeindex (trace_rb (log w))) in *.
  unfold drain_body, drained. cbv zeta. fold a r wi.
  set (n := rb_size (trace_rb (log w))) in *.
  assert (Hra : wrap32 (r + a) = wi) by (by apply wrap32_sub_add).
  assert (Hmodn : (r + a) mod n = wi mod n)
    by (by rewrite <- Hra, Hsize, wrap32_mod_size).
  assert (Hn : 0 < n < 2 ^ 32) by lia.
  pose proof (Z.mod_pos_bound wi n ltac:(lia)) as Hwo.
  rewrite (wrap32_small a) by lia.
  destruct (Z.ltb_spec n a) as [Hover|Hok]; cbv iota beta.
  - (* more than the capacity is unread *)
    rewrite land_mask' by done. fold n.
    rewrite (wrap32_small (a - n)) by lia.
    rewrite (to_int32_small n) by lia.
    set (index := wrap32 (r + (a - n))).
    assert (Hidx : index mod n = wi mod n).
    { subst index. rewrite Hsize, wrap32_mod_size, <- Hsize by done.
      replace (r + (a - n)) with (r + a - n) by lia.
      by rewrite mod_sub_size by lia. }
    rewrite Hidx.
    destruct (consumer_reads (trace_data (log w)) n (wi mod n) n)
      as (out1 & out2 & Hout1 & Hout2 & Hout); [done|lia|lia|lia|].
    cbv zeta in Hout1, Hout2. cbn [log emit_stderr trace_data].
    rewrite Hout1, bind_Done.
    assert (Hget : out1 ++ out2
                   = drop (Z.to_nat (n - a `min` n)) (ring_window (log w))).
    { rewrite Hout. unfold ring_window. fold n wi.
      replace (Z.to_nat (n - a `min` n)) with 0%nat by lia. rewrite drop_0.
      rewrite (ring_get_view _ (Z.to_nat (wi mod n))) by lia.
      replace (length (trace_data (log w)) - Z.to_nat n)%nat with 0%nat by lia.
      by rewrite drop_0. }
    assert (Hupd : wrap32 (index + n) = wi).
    { subst index. unfold wrap32 in *. rewrite Zplus_mod_idemp_l.
      rewrite <- Hra. f_equal. lia. }
    unfold spa_ringbuffer_read_update. rewrite Hupd.
    destruct (_ <? _).
    + rewrite Hout2, bind_Done. unfold set_log, emit_stderr.
      fields. rewrite <- Hget. unfold overflow_report. by rewrite <- !app_assoc.
    + subst out2. rewrite bind_Done. unfold set_log, emit_stderr.
      fields. rewrite <- Hget. unfold overflow_report. by rewrite <- !app_assoc, app_nil_r.
  - (* at most the capacity is unread *)
    rewrite land_mask' by done. fold n.
    pose proof (Z.mod_pos_bound r n ltac:(lia)) as Hro.
    destruct (consumer_reads (trace_data (log w)) n (r mod n) a)
      as (out1 & out2 & Hout1 & Hout2 & Hout); [done|lia|lia|lia|].
    cbv zeta in Hout1, Hout2. rewrite Hout1, bind_Done.
    assert (Hget : out1 ++ out2
                   = drop (Z.to_nat (n - a `min` n)) (ring_window (log w))).
    { rewrite Hout. unfold ring_window. fold n wi.
      rewrite (ring_get_view _ (Z.to_nat (wi mod n))); [|lia..| ].
      - do 2 f_equal. lia.
      - destruct (mod_offset_cases n r wi a) as [Hc|Hc]; [lia|lia|done|lia|lia]. }
    unfold spa_ringbuffer_read_update. rewrite Hra.
    destruct (_ <? _).
    + rewrite Hout2, bind_Done. unfold set_log, emit_stderr.
      fields. rewrite <- Hget. by rewrite <- !app_assoc.
    + subst out2. rewrite bind_Done. unfold set_log, emit_stderr.
      fields. rewrite <- Hget. by rewrite app_nil_r.
Qed.

Lemma unread_drained w : unread (drained w) = 0.
Proof.
  unfold unread, drained, spa_ringbuffer_get_read_index. fields.
  by rewrite Z.sub_diag.
Qed.

Lemma drained_wf w : ring_wf (log w) → ring_wf (log (drained w)).
Proof.
  intros (k & Hk & Hsize & Hmask & Hdata & Hr & Hw). exists k.
  unfold drained. by fields.
Qed.

(** The loop runs its body at most once. *)
Lemma drain_wf fuel w :
  ring_wf (log w) → (1 ≤ fuel)%nat →
  drain fuel w = Done (if 0 <? unread w then drained w else w).
Proof.
  intros Hwf Hfuel. destruct fuel as [|fuel]; [lia|].
  cbn [drain]. unfold spa_ringbuffer_get_read_index.
  change (to_int32 _) with (unread w).
  destruct (Z.ltb_spec 0 (unread w)) as [Hpos|Hnone]; [|done].
  rewrite drain_body_wf by done. rewrite bind_Done.
  destruct fuel; cbn [drain]; unfold spa_ringbuffer_get_read_index;
    change (to_int32 _) with (unread (drained w)); by rewrite unread_drained.
Qed.

(** ** The producer *)

Lemma trace_appended_wf bs w :
  ring_wf (log w) →
  Z.of_nat (length bs) ≤ rb_size (trace_rb (log w)) →
  ring_wf (log (trace_appended bs w)).
Proof.
  intros (k & Hk & Hsize & Hmask & Hdata & Hr & Hw) Hbs. exists k.
  pose proof (pow2_size_range k Hk).
  unfold trace_appended, emit_sys, set_log. fields.
  pose proof (wrap32_range (rb_writeindex (trace_rb (log w)) + Z.of_nat (length bs))).
  pose proof (Z.mod_pos_bound (rb_writeindex (trace_rb (log w)))
                (rb_size (trace_rb (log w)))).
  rewrite length_ring_put by lia. split_and!; lia.
Qed.

(** Publishing [bs] shifts the window by [bs]. *)
Lemma trace_appended_window bs w :
  ring_wf (log w) →
  Z.of_nat (length bs) ≤ rb_size (trace_rb (log w)) →
  ring_window (log (trace_appended bs w))
    = drop (length bs) (ring_window (log w) ++ bs).
Proof.
  intros (k & Hk & Hsize & Hmask & Hdata & Hr & Hw) Hbs.
  pose proof (pow2_size_range k Hk).
  unfold ring_window, trace_appended, emit_sys, set_log. fields.
  set (n := rb_size (trace_rb (log w))) in *.
  set (wi := rb_writeindex (trace_rb (log w))) in *.
  pose proof (Z.mod_pos_bound wi n ltac:(lia)).
  pose proof (Z.mod_pos_bound (wrap32 (wi + Z.of_nat (length bs))) n ltac:(lia)).
  apply ring_put_view; [lia..|].
  destruct (mod_offset_cases n wi (wrap32 (wi + Z.of_nat (length bs)))
              (Z.of_nat (length bs))) as [Hc|Hc]; [lia|lia| |lia|lia].
  by rewrite Hsize, wrap32_mod_size.
Qed.

Lemma length_trace_record base c : (length (trace_record base c) ≤ 1024)%nat.
Proof.
  unfold trace_record.
  pose proof (length_location (rendered "*T*" base c)).
  destruct (snprintf 1024 (rendered "*T*" base c)) as [location size].
  cbn [fst] in *. rewrite length_take. lia.
Qed.

(** A trace call on an armed facility that is defined is the copy of its
    record into the ring. *)
Lemma do_logv_trace_inv file line func msg w w' :
  have_source (log w) = true →
  ring_wf (log w) →
  1024 ≤ rb_size (trace_rb (log w)) →
  do_logv SPA_LOG_LEVEL_TRACE file line func msg w = Done w' →
  ∃ base, basename_is file base ∧
          w' = trace_appended (trace_record base (mk_call file line func msg)) w.
Proof.
  intros Harmed Hwf Hbig Hdone.
  destruct (strrchr file "/") as [p|] eqn:Hp;
    [|by rewrite do_logv_null in Hdone].
  destruct (strrchr_Some_head _ _ _ Hp) as [base ->].
  exists base. split; [by eexists|].
  assert (Hfit : wrap32 (snd (snprintf 1024
                    (rendered "*T*" base (mk_call file line func msg)))) ≤ 1024).
  { revert Hdone. unfold do_logv. cbv zeta. rewrite Harmed.
    rewrite bool_decide_eq_true_2 by done. cbn [andb].
    rewrite levels_at_trace_armed, bind_Done, Hp. cbn [ptr_succ]. rewrite bind_Done.
    change (format_location "*T*" base line func (snprintf 1024 msg).1)
      with (rendered "*T*" base (mk_call file line func msg)).
    pose proof (length_location (rendered "*T*" base (mk_call file line func msg))).
    destruct (snprintf 1024 _) as [location size]. cbn [fst snd] in *.
    destruct (spa_ringbuffer_write_data _ _ _ _ _) as [d| |] eqn:Hwd; [|done..].
    apply write_data_Done_inv in Hwd; [lia|apply wrap32_range]. }
  rewrite (do_logv_trace _ _ _ _ _ base) in Hdone; [|done..|by eexists|done].
  congruence.
Qed.

Lemma basename_record_of c base :
  basename_is (c_file c) base → record_of c = trace_record base c.
Proof. intros [c0 H]. unfold record_of. by rewrite H. Qed.

Lemma on_trace_event_after_read fuel rd w :
  on_trace_event fuel rd w = drain fuel (after_read rd w).
Proof. by destruct rd. Qed.

Lemma log_after_read rd w : log (after_read rd w) = log w.
Proof. by destruct rd. Qed.

(** Every defined call of [do_logv] took one of its two branches. *)
Lemma do_logv_cases level file line func msg w w' :
  ring_wf (log w) →
  1024 ≤ rb_size (trace_rb (log w)) →
  do_logv level file line func msg w = Done w' →
  ∃ base, basename_is file base ∧
    w' = if bool_decide (level = SPA_LOG_LEVEL_TRACE) && have_source (log w)
         then trace_appended (trace_record base (mk_call file line func msg)) w
         else fputs_stdout w
                (fst (snprintf 1024
                        (rendered (level_label level) base
                           (mk_call file line func msg)))).
Proof.
  intros Hwf Hbig Hdone.
  destruct (bool_decide (level = SPA_LOG_LEVEL_TRACE) && have_source (log w))
    eqn:Htrace.
  - apply andb_prop in Htrace as [Hlev Harmed].
    apply bool_decide_eq_true in Hlev. subst level.
    by apply do_logv_trace_inv.
  - destruct (strrchr file "/") as [p|] eqn:Hp;
      [|by rewrite do_logv_null in Hdone].
    destruct (strrchr_Some_head _ _ _ Hp) as [base ->].
    exists base. split; [by eexists|].
    rewrite (do_logv_direct _ _ _ _ _ _ base) in Hdone; [|done|by eexists].
    congruence.
Qed.

(** What a run of trace calls does to an armed facility whose threshold
    lets them through. *)
Lemma run_trace_calls cs w w1 :
  ring_wf (log w) →
  1024 ≤ rb_size (trace_rb (log w)) →
  have_source (log w) = true →
  pw_log_level w = SPA_LOG_LEVEL_TRACE →
  run_ops (map trace_op cs) w = Done w1 →
  ring_wf (log w1) ∧
  stdout w1 = stdout w ∧ stderr w1 = stderr w ∧
  rb_size (trace_rb (log w1)) = rb_size (trace_rb (log w)) ∧
  rb_readindex (trace_rb (log w1)) = rb_readindex (trace_rb (log w)) ∧
  rb_writeindex (trace_rb (log w1))
    = wrap32 (rb_writeindex (trace_rb (log w)) + Z.of_nat (length (published cs))) ∧
  ring_window (log w1)
    = drop (length (published cs)) (ring_window (log w) ++ published cs).
Proof.
  revert w. induction cs as [|c cs IH]; intros w Hwf Hbig Harmed Hlev Hrun.
  - cbn in Hrun. injection Hrun as <-. cbn [published length].
    pose proof Hwf as (k & Hk & Hsize & Hmask & Hdata & Hr & Hw).
    by rewrite Z.add_0_r, wrap32_small, app_nil_r, drop_0 by done.
  - cbn [map run_ops] in Hrun.
    destruct (run_op (trace_op c) w) as [w'| |] eqn:Hop; try done.
    rewrite bind_Done in Hrun.
    cbn [trace_op run_op] in Hop. unfold pw_log_log, pw_log_level_enabled in Hop.
    rewrite Hlev, Z.leb_refl in Hop.
    apply do_logv_trace_inv in Hop as (base & Hbase & ->); [|done..].
    replace (mk_call (c_file c) (c_line c) (c_func c) (c_msg c)) with c
      in * by (by destruct c).
    pose proof (length_trace_record base c) as Hlen.
    set (bs := trace_record base c) in *.
    assert (Hbs : Z.of_nat (length bs) ≤ rb_size (trace_rb (log w))) by lia.
    destruct (IH (trace_appended bs w)) as (Hwf1 & Hout & Herr & Hsz & Hrd & Hwr & Hwin);
      [by apply trace_appended_wf|done|done|done|done|].
    rewrite (trace_appended_window bs w) in Hwin by done.
    cbn [published]. rewrite (basename_record_of c base) by done. fold bs.
    unfold trace_appended, emit_sys, set_log in Hout, Herr, Hsz, Hrd, Hwr. fields.
    split_and!; try done.
    + rewrite Hwr. unfold wrap32. rewrite Zplus_mod_idemp_l. f_equal.
      rewrite length_app. lia.
    + rewrite Hwin, length_app.
      rewrite <- (drop_app_le _ (published cs)), <- app_assoc, drop_drop; [done|].
      rewrite length_app. lia.
Qed.

(** ** The registrations of the source *)

Lemma registered_app es es' :
  registered (es ++ es') = foldl registered_step (registered es) es'.
Proof. unfold registered. apply foldl_app. Qed.

Lemma registered_snoc_quiet es e : quiet e → registered (es ++ [e]) = registered es.
Proof. intros Hq. rewrite registered_app. by destruct e. Qed.

(** Prefixes of a longer record of calls: those of the old record, then
    the old record with a prefix of what was added. *)
Lemma registered_take_app es new n :
  (∀ m, (length (registered (take m es)) ≤ 1)%nat) →
  (∀ m, (length (foldl registered_step (registered es) (take m new)) ≤ 1)%nat) →
  (length (registered (take n (es ++ new))) ≤ 1)%nat.
Proof.
  intros Hold Hnew. rewrite take_app.
  destruct (decide (n ≤ length es)%nat) as [Hle|Hgt].
  - replace (n - length es)%nat with 0%nat by lia. rewrite take_0, app_nil_r.
    apply Hold.
  - rewrite take_ge by lia. rewrite registered_app. apply Hnew.
Qed.

Lemma registered_take_snoc_quiet es e n :
  quiet e →
  (∀ m, (length (registered (take m es)) ≤ 1)%nat) →
  (length (registered (take n (es ++ [e]))) ≤ 1)%nat.
Proof.
  intros Hq Hold. apply registered_take_app; [done|]. intros m.
  specialize (Hold (length es)). rewrite take_ge in Hold by lia.
  destruct m as [|m]; cbn [take foldl]; [done|].
  rewrite take_nil. by destruct e.
Qed.

Lemma filter_ne_singleton (lp : loop_id) : filter (λ x, x ≠ lp) [lp] = [].
Proof. rewrite filter_cons. by rewrite decide_False by (intros H; by apply H). Qed.

(** ** The invariant *)

Lemma invariant_init : invariant world_init.
Proof.
  split.
  - reflexivity.
  - exists 14. cbn [log world_init log_init trace_data trace_rb rb_size].
    rewrite length_replicate. by split_and!.
  - reflexivity.
  - intros n. cbn [sys world_init]. rewrite take_nil. cbn. lia.
  - reflexivity.
Qed.

Lemma invariant_set_level level w : invariant w → invariant (pw_log_set_level level w).
Proof. intros [H1 H2 H3 H4 H5]. by split. Qed.

Lemma invariant_fputs s w : invariant w → invariant (fputs_stdout w s).
Proof. intros [H1 H2 H3 H4 H5]. by split. Qed.

Lemma invariant_emit_stderr bs w : invariant w → invariant (emit_stderr w bs).
Proof. intros [H1 H2 H3 H4 H5]. by split. Qed.

Lemma invariant_emit_quiet e w : quiet e → invariant w → invariant (emit_sys w [e]).
Proof.
  intros Hq [H1 H2 H3 H4 H5]. split; try done.
  - intros n. by apply registered_take_snoc_quiet.
  - unfold emit_sys. fields. by rewrite registered_snoc_quiet.
Qed.

Lemma TRACE_BUFFER_big : 1024 ≤ TRACE_BUFFER.
Proof. by vm_compute. Qed.

Lemma invariant_trace_appended bs w :
  (length bs ≤ 1024)%nat → invariant w → invariant (trace_appended bs w).
Proof.
  intros Hbs Hinv. pose proof Hinv as [H1 H2 H3 H4 H5].
  pose proof TRACE_BUFFER_big.
  split.
  - done.
  - apply trace_appended_wf; [done|lia].
  - done.
  - intros n. unfold trace_appended, emit_sys, set_log. fields.
    by apply registered_take_snoc_quiet.
  - unfold trace_appended, emit_sys, set_log. fields.
    by rewrite registered_snoc_quiet.
Qed.

Lemma invariant_drained w : invariant w → invariant (drained w).
Proof.
  intros [H1 H2 H3 H4 H5]. split; try done. by apply drained_wf.
Qed.

Lemma invariant_after_read rd w : invariant w → invariant (after_read rd w).
Proof.
  intros Hinv. unfold after_read.
  destruct rd; [|apply invariant_emit_stderr]; by apply invariant_emit_quiet.
Qed.

Lemma invariant_do_logv level file line func msg w w' :
  invariant w → do_logv level file line func msg w = Done w' → invariant w'.
Proof.
  intros Hinv Hdone. pose proof TRACE_BUFFER_big.
  apply do_logv_cases in Hdone as (base & _ & ->);
    [|apply Hinv|rewrite (inv_size _ Hinv); lia].
  destruct (_ && _).
  - apply invariant_trace_appended; [apply length_trace_record|done].
  - by apply invariant_fputs.
Qed.

(** A dispatch that returns has read the descriptor and run the loop body
    at most once. *)
Lemma on_trace_event_Done fuel rd w w' :
  ring_wf (log w) →
  on_trace_event fuel rd w = Done w' →
  w' = if 0 <? unread w then drained (after_read rd w) else after_read rd w.
Proof.
  intros Hwf. rewrite on_trace_event_after_read.
  assert (Hu : unread (after_read rd w) = unread w)
    by (unfold unread; by rewrite log_after_read).
  destruct fuel as [|fuel].
  - cbn [drain]. unfold spa_ringbuffer_get_read_index.
    change (to_int32 _) with (unread (after_read rd w)). rewrite Hu.
    destruct (0 <? unread w); [done|congruence].
  - rewrite drain_wf by (rewrite ?log_after_read; done || lia).
    rewrite Hu. congruence.
Qed.

Lemma invariant_on_trace_event fuel rd w w' :
  invariant w → on_trace_event fuel rd w = Done w' → invariant w'.
Proof.
  intros Hinv Hdone. apply on_trace_event_Done in Hdone as ->; [|apply Hinv].
  destruct (0 <? unread w); [apply invariant_drained|];
    by apply invariant_after_read.
Qed.

(** ** [do_set_loop] *)

Lemma do_set_loop_detached loop efd w :
  have_source (log w) = false →
  do_set_loop loop efd w
    = Done (match loop with Some lp => attach lp efd w | None => w end).
Proof. intros H. unfold do_set_loop. rewrite H. by destruct loop. Qed.

Lemma do_set_loop_attached loop efd w old :
  have_source (log w) = true →
  src_loop (source (log w)) = Some old →
  do_set_loop loop efd w
    = Done (match loop with
            | Some lp => attach lp efd (detach old w)
            | None => detach old w
            end).
Proof. intros H Hold. unfold do_set_loop. rewrite H, Hold. by destruct loop. Qed.

Lemma invariant_detach old w :
  invariant w → have_source (log w) = true →
  src_loop (source (log w)) = Some old →
  invariant (detach old w) ∧ registered (sys (detach old w)) = [].
Proof.
  intros [H1 H2 H3 H4 H5] Harmed Hold. rewrite Harmed in H5.
  destruct H5 as (lp & Hlp & Hreg). assert (lp = old) as -> by congruence.
  assert (Hnow : registered (sys (detach old w)) = []).
  { unfold detach, emit_sys, set_log. fields.
    rewrite registered_app, Hreg. cbn [foldl registered_step].
    by rewrite filter_ne_singleton. }
  split; [|done]. split; try done.
  - intros n. unfold detach, emit_sys, set_log. fields.
    apply registered_take_app; [done|]. intros m. rewrite Hreg.
    destruct m as [|[|m]]; cbn [take foldl registered_step];
      rewrite ?filter_ne_singleton, ?take_nil; cbn; lia.
Qed.

Lemma invariant_attach lp efd w :
  invariant w → have_source (log w) = false →
  invariant (attach lp efd w) ∧ registered (sys (attach lp efd w)) = [lp].
Proof.
  intros [H1 H2 H3 H4 H5] Hoff. rewrite Hoff in H5.
  assert (Hnow : registered (sys (attach lp efd w)) = [lp]).
  { unfold attach, emit_sys, set_log. fields. by rewrite registered_app, H5. }
  split; [|done]. split; try done.
  - intros n. unfold attach, emit_sys, set_log. fields.
    apply registered_take_app; [done|]. intros m. rewrite H5.
    destruct m as [|[|m]]; cbn [take foldl registered_step];
      rewrite ?take_nil; cbn; lia.
  - unfold attach at 1. unfold set_log. fields. by exists lp.
Qed.

Lemma invariant_do_set_loop loop efd w w' :
  invariant w → do_set_loop loop efd w = Done w' → invariant w'.
Proof.
  intros Hinv. destruct (have_source (log w)) eqn:Harmed.
  - pose proof (inv_registered _ Hinv) as Hreg. rewrite Harmed in Hreg.
    destruct Hreg as (old & Hold & _).
    rewrite (do_set_loop_attached _ _ _ old) by done. intros [= <-].
    destruct (invariant_detach old w) as [Hd _]; [done..|].
    destruct loop as [lp|]; [|done]. by apply invariant_attach.
  - rewrite do_set_loop_detached by done. intros [= <-].
    destruct loop as [lp|]; [|done]. by apply invariant_attach.
Qed.

Lemma invariant_pw_log_log level file line func msg w w' :
  invariant w → pw_log_log level file line func msg w = Done w' → invariant w'.
Proof.
  unfold pw_log_log. destruct (pw_log_level_enabled w level).
  - apply invariant_do_logv.
  - by intros ? [= <-].
Qed.

(** Every state the program reaches satisfies the invariant. *)
Lemma reachable_invariant w : reachable w → invariant w.
Proof.
  induction 1 as [|w o w' _ IH Hop]; [apply invariant_init|].
  destruct o; cbn [run_op] in Hop.
  - injection Hop as <-. by apply invariant_set_level.
  - by eapply invariant_do_set_loop.
  - by eapply invariant_pw_log_log.
  - by eapply invariant_pw_log_log.
  - by eapply invariant_do_logv.
  - by eapply invariant_on_trace_event.
Qed.

(** ** The level *)

(** Only [pw_log_set_level] writes a level. *)
Lemma run_op_levels o w w' :
  invariant w → run_op o w = Done w' →
  (∀ level, o ≠ OpSetLevel level) →
  pw_log_level w' = pw_log_level w ∧ log_level (log w') = log_level (log w).
Proof.
  intros Hinv Hop Hother. pose proof TRACE_BUFFER_big as Hbig.
  assert (Hlogv : ∀ level file line func msg,
             do_logv level file line func msg w = Done w' →
             pw_log_level w' = pw_log_level w ∧ log_level (log w') = log_level (log w)).
  { intros level file line func msg Hdone.
    apply do_logv_cases in Hdone as (base & _ & ->);
      [|apply Hinv|rewrite (inv_size _ Hinv); lia].
    by destruct (_ && _). }
  assert (Hlog : ∀ level file line func msg,
             pw_log_log level file line func msg w = Done w' →
             pw_log_level w' = pw_log_level w ∧ log_level (log w') = log_level (log w)).
  { intros level file line func msg. unfold pw_log_log.
    destruct (pw_log_level_enabled w level); [apply Hlogv|by intros [= <-]]. }
  destruct o as [level|loop efd| | | |fuel rd]; cbn [run_op] in Hop.
  - by destruct (Hother level).
  - unfold pw_log_set_loop in Hop.
    destruct (have_source (log w)) eqn:Harmed.
    + pose proof (inv_registered _ Hinv) as Hreg. rewrite Harmed in Hreg.
      destruct Hreg as (old & Hold & _).
      rewrite (do_set_loop_attached _ _ _ old) in Hop by done.
      injection Hop as <-. by destruct loop.
    + rewrite do_set_loop_detached in Hop by done.
      injection Hop as <-. by destruct loop.
  - by eapply Hlog.
  - by eapply Hlog.
  - by eapply Hlogv.
  - apply on_trace_event_Done in Hop as ->; [|apply Hinv].
    destruct (0 <? unread w); by destruct rd.
Qed.

(** C9: the global [pw_log_level] and the field [log.log.level] are equal
    in the initial state and in every state the program reaches;
    [pw_log_set_level] stores its argument into both, and no other
    operation changes either. *)
Theorem level_copies_agree w :
  reachable w →
  pw_log_level w = log_level (log w) ∧
  (∀ level, pw_log_level (pw_log_set_level level w) = level ∧
            log_level (log (pw_log_set_level level w)) = level) ∧
  (∀ o w', run_op o w = Done w' → (∀ level, o ≠ OpSetLevel level) →
           pw_log_level w' = pw_log_level w ∧
           log_level (log w') = log_level (log w)).
Proof.
  intros Hreach. apply reachable_invariant in Hreach as Hinv. split_and!.
  - apply Hinv.
  - done.
  - intros o w'. by apply run_op_levels.
Qed.

(** ** The attachment *)

(** C8: [do_set_loop] is the two-state machine. With a null loop while
    detached it changes nothing. With a loop while attached it first
    removes the source from the old loop, closes the old descriptor and
    clears [have_source], and only then calls [eventfd] and adds the
    source to the new loop; after every call made so far the source is
    registered with at most one loop. *)
Theorem set_loop_two_state_machine w :
  reachable w →
  (have_source (log w) = false → ∀ efd, do_set_loop None efd w = Done w) ∧
  (have_source (log w) = true → ∀ lp efd,
     ∃ old w',
       src_loop (source (log w)) = Some old ∧
       registered (sys w) = [old] ∧
       do_set_loop (Some lp) efd w = Done w' ∧
       sys w' = sys w ++ [EvRemoveSource old (src_fd (source (log w)));
                          EvClose (src_fd (source (log w)));
                          EvEventfd efd;
                          EvAddSource lp efd] ∧
       have_source (log (detach old w)) = false ∧
       registered (sys (detach old w)) = [] ∧
       w' = attach lp efd (detach old w) ∧
       have_source (log w') = true ∧
       src_fd (source (log w')) = efd ∧
       registered (sys w') = [lp]) ∧
  (∀ n, (length (registered (take n (sys w))) ≤ 1)%nat).
Proof.
  intros Hreach. apply reachable_invariant in Hreach as Hinv. split_and!.
  - intros Hoff efd. by rewrite do_set_loop_detached.
  - intros Harmed lp efd.
    pose proof (inv_registered _ Hinv) as Hreg. rewrite Harmed in Hreg.
    destruct Hreg as (old & Hold & Hreg).
    destruct (invariant_detach old w) as [Hd Hdreg]; [done..|].
    destruct (invariant_attach lp efd (detach old w)) as [Ha Hareg]; [done..|].
    exists old, (attach lp efd (detach old w)).
    split_and!; try done.
    + by rewrite (do_set_loop_attached _ _ _ old).
    + unfold attach, detach, emit_sys, set_log. fields. by rewrite <- app_assoc.
  - apply Hinv.
Qed.

Lemma reachable_tracing : reachable world_tracing.
Proof.
  apply (reachable_step world_init (OpSetLevel SPA_LOG_LEVEL_TRACE));
    [apply reachable_init|reflexivity].
Qed.

Lemma reachable_armed : reachable world_armed.
Proof.
  apply (reachable_step world_tracing (OpSetLoop (Some 1%nat) 3));
    [apply reachable_tracing|reflexivity].
Qed.

Lemma level_copies_agree_witness :
  reachable world_armed ∧ pw_log_level world_armed = log_level (log world_armed).
Proof.
  split; [apply reachable_armed|].
  apply (level_copies_agree world_armed). apply reachable_armed.
Defined.

Lemma set_loop_two_state_machine_witness :
  reachable world_armed ∧
  ∃ w', do_set_loop (Some 2%nat) 4 world_armed = Done w' ∧
        sys w' = sys world_armed ++ [EvRemoveSource 1%nat 3; EvClose 3;
                                     EvEventfd 4; EvAddSource 2%nat 4] ∧
        registered (sys w') = [2%nat].
Proof.
  split; [apply reachable_armed|].
  destruct (set_loop_two_state_machine world_armed reachable_armed) as (_ & H & _).
  destruct (H eq_refl 2%nat 4)
    as (old & w' & Hold & _ & Hrun & Hsys & _ & _ & _ & _ & _ & Hreg).
  injection Hold as <-. by exists w'.
Defined.

(** ** Attachment when [eventfd] fails *)

(** C3, as stated, fails: with [eventfd] returning [-1], attaching the
    initial, detached facility leaves it armed, with [-1] as its
    descriptor. *)
Lemma failed_eventfd_counterexample :
  ∃ w', do_set_loop (Some 1%nat) (-1) world_init = Done w' ∧
        have_source (log w') = true ∧
        src_fd (source (log w')) = -1.
Proof. eexists. split_and!; reflexivity. Qed.

(** C3, amended: [do_set_loop] does not look at what [eventfd] returns.
    When it returns [-1] the source is still added to the loop, with [-1]
    as descriptor, and [have_source] is set; a trace call that follows is
    not dropped: its record goes into the ring and the wakeup is written
    to descriptor [-1]. *)
Theorem failed_eventfd_still_arms w lp c base :
  reachable w →
  basename_is (c_file c) base →
  wrap32 (snd (snprintf 1024 (rendered "*T*" base c))) ≤ 1024 →
  ∃ w' w'',
    do_set_loop (Some lp) (-1) w = Done w' ∧
    have_source (log w') = true ∧
    src_fd (source (log w')) = -1 ∧
    last (sys w') = Some (EvAddSource lp (-1)) ∧
    do_logv SPA_LOG_LEVEL_TRACE (c_file c) (c_line c) (c_func c) (c_msg c) w'
      = Done w'' ∧
    w'' = trace_appended (trace_record base c) w' ∧
    stdout w'' = stdout w' ∧
    stderr w'' = stderr w' ∧
    sys w'' = sys w' ++ [EvWrite (-1) 1] ∧
    rb_writeindex (trace_rb (log w''))
      = wrap32 (rb_writeindex (trace_rb (log w'))
                + Z.of_nat (length (trace_record base c))).
Proof.
  intros Hreach Hbase Hfit. apply reachable_invariant in Hreach as Hinv.
  pose proof TRACE_BUFFER_big as Hbig.
  assert (Hset : ∃ w0, invariant w0 ∧ have_source (log w0) = false ∧
                       do_set_loop (Some lp) (-1) w = Done (attach lp (-1) w0)).
  { destruct (have_source (log w)) eqn:Harmed.
    - pose proof (inv_registered _ Hinv) as Hreg. rewrite Harmed in Hreg.
      destruct Hreg as (old & Hold & _).
      destruct (invariant_detach old w) as [Hd _]; [done..|].
      exists (detach old w). split_and!; [done..|].
      by rewrite (do_set_loop_attached _ _ _ old).
    - exists w. split_and!; [done..|]. by rewrite do_set_loop_detached. }
  destruct Hset as (w0 & Hinv0 & Hoff & Hset).
  destruct (invariant_attach lp (-1) w0) as [Hinv' _]; [done..|].
  exists (attach lp (-1) w0), (trace_appended (trace_record base c) (attach lp (-1) w0)).
  split_and!; try done.
  - unfold attach, emit_sys, set_log. fields.
    by rewrite last_app.
  - destruct c as [file line func msg]. fields.
    apply do_logv_trace; try done; [apply Hinv'|].
    rewrite (inv_size _ Hinv'). lia.
Qed.

Lemma failed_eventfd_still_arms_witness :
  reachable world_init ∧
  ∃ w', do_set_loop (Some 1%nat) (-1) world_init = Done w' ∧
        have_source (log w') = true ∧
        ∃ w'', do_logv SPA_LOG_LEVEL_TRACE "src/log.c" 7 "f" (long_msg 1000) w'
                 = Done w'' ∧
               sys w'' = sys w' ++ [EvWrite (-1) 1].
Proof.
  split; [apply reachable_init|].
  destruct (failed_eventfd_still_arms world_init 1%nat call_1020 "log.c")
    as (w' & w'' & H1 & H2 & _ & _ & H3 & _ & _ & _ & H4 & _).
  - apply reachable_init.
  - exists "/"%char. reflexivity.
  - vm_compute. discriminate.
  - exists w'. split_and!; [done..|]. by exists w''.
Defined.

(** ** The basename *)

Lemma strrchr_None s c : strrchr s c = None ↔ contains c s = false.
Proof.
  induction s as [|a s IH]; cbn [strrchr contains]; [done|].
  destruct (strrchr s c) as [r|]; destruct (decide (a = c)) as [Hac|Hac];
    rewrite ?(bool_decide_eq_true_2 _ Hac), ?(bool_decide_eq_false_2 _ Hac);
    cbn [orb]; done.
Qed.

Lemma strrchr_last pre c r :
  contains c r = false → strrchr (pre +:+ String c r) c = Some (String c r).
Proof.
  intros Hr. induction pre as [|a pre IH].
  - change ("" +:+ String c r) with (String c r). cbn [strrchr].
    apply strrchr_None in Hr. rewrite Hr. by rewrite decide_True.
  - change (String a pre +:+ String c r) with (String a (pre +:+ String c r)).
    cbn [strrchr]. by rewrite IH.
Qed.

Lemma basename_is_last dir base :
  contains "/" base = false → basename_is (dir +:+ "/" +:+ base) base.
Proof. intros H. exists "/"%char. by apply (strrchr_last dir "/" base). Qed.

(** ** Trace calls on a detached facility *)

(** C1, as stated, fails: a trace-level call on the detached facility,
    with the threshold at trace, is printed on standard output. *)
Lemma unarmed_trace_counterexample :
  have_source (log world_tracing) = false ∧
  ∃ w', pw_log_log SPA_LOG_LEVEL_TRACE "src/log.c" 42 "main" "hello" world_tracing
          = Done w' ∧
        stdout w' = ["[T][log.c:42 main()] hello" +:+ nl].
Proof. split; [reflexivity|]. eexists. split; reflexivity. Qed.

(** C1, amended: a trace-level call on a facility that is not armed leaves
    the ring buffer, the standard error and the wakeup descriptor alone,
    but it is not dropped: [do_logv] prints its line, labelled [T], on
    standard output, so through [pw_log_log] it is printed when the
    threshold is trace and produces no output otherwise. *)
Theorem unarmed_trace_call w file line func msg base :
  have_source (log w) = false →
  basename_is file base →
  let printed :=
    fst (snprintf 1024 (rendered "T" base (mk_call file line func msg))) in
  do_logv SPA_LOG_LEVEL_TRACE file line func msg w = Done (fputs_stdout w printed) ∧
  ∃ w', pw_log_log SPA_LOG_LEVEL_TRACE file line func msg w = Done w' ∧
        log w' = log w ∧ stderr w' = stderr w ∧ sys w' = sys w ∧
        stdout w' = if pw_log_level_enabled w SPA_LOG_LEVEL_TRACE
                    then stdout w ++ [printed] else stdout w.
Proof.
  intros Hoff Hbase printed.
  assert (Hdirect : do_logv SPA_LOG_LEVEL_TRACE file line func msg w
                    = Done (fputs_stdout w printed)).
  { apply (do_logv_direct SPA_LOG_LEVEL_TRACE); [|done].
    rewrite Hoff. apply andb_false_r. }
  split; [done|]. unfold pw_log_log. rewrite Hdirect.
  destruct (pw_log_level_enabled w SPA_LOG_LEVEL_TRACE); by eexists.
Qed.

Lemma unarmed_trace_call_witness :
  have_source (log world_tracing) = false ∧
  basename_is "src/log.c" "log.c" ∧
  do_logv SPA_LOG_LEVEL_TRACE "src/log.c" 42 "main" "hello" world_tracing
    = Done (fputs_stdout world_tracing ("[T][log.c:42 main()] hello" +:+ nl)).
Proof.
  split_and!; [reflexivity|exists "/"%char; reflexivity|].
  apply (unarmed_trace_call world_tracing "src/log.c" 42 "main" "hello" "log.c");
    [reflexivity|exists "/"%char; reflexivity].
Defined.

(** ** The level filter *)

(** C4: a call of [pw_log_log] or [pw_log_logv] at a level more verbose
    than the threshold returns with the state as it was; a call below
    trace at a level the threshold admits performs exactly one [fputs] to
    standard output, of the formatted line, and changes nothing else.
    ([file] has a ['/'], the precondition of every emitting call.) *)
Theorem level_filter w level file line func msg :
  (level_num (pw_log_level w) < level_num level →
   pw_log_log level file line func msg w = Done w ∧
   pw_log_logv level file line func msg w = Done w) ∧
  (level ≠ SPA_LOG_LEVEL_TRACE →
   level_num level ≤ level_num (pw_log_level w) →
   ∀ base, basename_is file base →
     ∃ w', pw_log_log level file line func msg w = Done w' ∧
           pw_log_logv level file line func msg w = Done w' ∧
           stdout w'
             = stdout w ++ [fst (snprintf 1024
                                   (rendered (level_label level) base
                                      (mk_call file line func msg)))] ∧
           log w' = log w ∧ pw_log_level w' = pw_log_level w ∧
           stderr w' = stderr w ∧ sys w' = sys w).
Proof.
  split.
  - intros Hlt. unfold pw_log_log, pw_log_logv, pw_log_level_enabled.
    destruct (Z.leb_spec (level_num level) (level_num (pw_log_level w))); [lia|done].
  - intros Hlevel Hle base Hbase.
    unfold pw_log_log, pw_log_logv, pw_log_level_enabled.
    destruct (Z.leb_spec (level_num level) (level_num (pw_log_level w))); [|lia].
    rewrite (do_logv_direct level _ _ _ _ _ base); [by eexists| |done].
    by rewrite bool_decide_eq_false_2.
Qed.

Lemma level_filter_witness :
  pw_log_log SPA_LOG_LEVEL_INFO "src/log.c" 42 "main" "hello"
    (pw_log_set_level SPA_LOG_LEVEL_WARN world_init)
    = Done (pw_log_set_level SPA_LOG_LEVEL_WARN world_init) ∧
  ∃ w', pw_log_log SPA_LOG_LEVEL_WARN "src/log.c" 42 "main" "hello"
          (pw_log_set_level SPA_LOG_LEVEL_WARN world_init) = Done w' ∧
        stdout w' = ["[W][log.c:42 main()] hello" +:+ nl].
Proof.
  split.
  - apply (level_filter (pw_log_set_level SPA_LOG_LEVEL_WARN world_init)
             SPA_LOG_LEVEL_INFO "src/log.c" 42 "main" "hello").
    reflexivity.
  - destruct (level_filter (pw_log_set_level SPA_LOG_LEVEL_WARN world_init)
                SPA_LOG_LEVEL_WARN "src/log.c" 42 "main" "hello") as [_ H].
    destruct (H ltac:(discriminate) ltac:(vm_compute; discriminate) "log.c")
      as (w' & Hrun & _ & Hout & _).
    { exists "/"%char. reflexivity. }
    exists w'. by split.
Defined.

(** ** The file argument *)

(** C10: a call that passes the filter needs a ['/'] in [file]. Without
    one [strrchr] returns the null pointer and the call is undefined; with
    one, only what follows the last ['/'] is printed. *)
Theorem file_needs_slash w level file line func msg :
  pw_log_level_enabled w level = true →
  (contains "/" file = false →
   strrchr file "/" = None ∧
   pw_log_log level file line func msg w = Undefined NullPointer ∧
   pw_log_logv level file line func msg w = Undefined NullPointer) ∧
  (∀ dir base,
     file = dir +:+ "/" +:+ base → contains "/" base = false →
     ptr_succ (strrchr file "/") = Done base ∧
     (bool_decide (level = SPA_LOG_LEVEL_TRACE) && have_source (log w) = false →
      pw_log_log level file line func msg w
        = Done (fputs_stdout w
                  (fst (snprintf 1024
                          (format_location (level_label level) base line func
                             (fst (snprintf 1024 msg)))))))).
Proof.
  intros Hon. split.
  - intros Hnone. apply strrchr_None in Hnone.
    unfold pw_log_log, pw_log_logv. rewrite Hon.
    by rewrite do_logv_null.
  - intros dir base -> Hbase.
    pose proof (basename_is_last dir base Hbase) as Hb. split.
    + destruct Hb as [c ->]. done.
    + intros Hdirect. unfold pw_log_log. rewrite Hon.
      by rewrite (do_logv_direct level _ _ _ _ _ base).
Qed.

Lemma file_needs_slash_witness :
  pw_log_level_enabled world_init SPA_LOG_LEVEL_ERROR = true ∧
  contains "/" "log.c" = false ∧
  pw_log_log SPA_LOG_LEVEL_ERROR "log.c" 42 "main" "hello" world_init
    = Undefined NullPointer.
Proof.
  split_and!; [reflexivity..|].
  destruct (file_needs_slash world_init SPA_LOG_LEVEL_ERROR "log.c" 42 "main" "hello")
    as [H _]; [reflexivity|].
  destruct H as (_ & H & _); [reflexivity|]. exact H.
Defined.

(** ** The length of a trace record *)

(** C7 fails on the code: for a line longer than [location], the trace
    branch passes what [snprintf] returned, the length of the whole line,
    to the copy, which then reads past the end of [location]. *)
Theorem overlong_trace_overreads :
  let c := call_1043 in
  have_source (log world_armed) = true ∧
  String.length (c_msg c) = 1023%nat ∧
  snd (snprintf 1024 (rendered "*T*" "log.c" c)) = 1043 ∧
  length (c_array (fst (snprintf 1024 (rendered "*T*" "log.c" c)))) = 1024%nat ∧
  do_logv SPA_LOG_LEVEL_TRACE (c_file c) (c_line c) (c_func c) (c_msg c) world_armed
    = Undefined OutOfBounds.
Proof. vm_compute. by split_and!. Qed.

(** ** The consumer after a run of trace calls *)

Lemma reachable_run_ops os w w' :
  reachable w → run_ops os w = Done w' → reachable w'.
Proof.
  revert w. induction os as [|o os IH]; intros w Hreach; cbn [run_ops].
  - by intros [= <-].
  - destruct (run_op o w) as [w1| |] eqn:Hop; try done. rewrite bind_Done.
    apply IH. by eapply reachable_step.
Qed.

(** One iteration on at most a capacity of unread bytes, in the terms of
    the source: the offset, the first run, the wrapped rest. *)
Lemma drain_body_shape w :
  ring_wf (log w) →
  0 < unread w ≤ rb_size (trace_rb (log w)) →
  let rb := trace_rb (log w) in
  let avail := unread w in
  let offset := Z.land (rb_readindex rb) (rb_mask rb) in
  let first := Z.min avail (rb_size rb - offset) in
  ∃ w2,
    drain_body avail (rb_readindex rb) w = Done w2 ∧
    stderr w2 = stderr w
                  ++ take (Z.to_nat first) (drop (Z.to_nat offset) (trace_data (log w)))
                  ++ take (Z.to_nat (avail - first)) (trace_data (log w)) ∧
    rb_readindex (trace_rb (log w2)) = wrap32 (rb_readindex rb + avail) ∧
    unread w2 = 0.
Proof.
  intros Hwf [Hpos Hle]. cbv zeta.
  pose proof (unread_pos w Hwf Hpos) as [Hu Hlt].
  pose proof Hwf as (k & Hk & Hsize & Hmask & Hdata & Hr & Hw).
  pose proof (pow2_size_range k Hk) as Hpow.
  rewrite land_mask' by done.
  set (avail := unread w) in *.
  set (n := rb_size (trace_rb (log w))) in *.
  set (r := rb_readindex (trace_rb (log w))) in *.
  set (wi := rb_writeindex (trace_rb (log w))) in *.
  pose proof (Z.mod_pos_bound r n ltac:(lia)) as Hro.
  pose proof (Z.mod_pos_bound wi n ltac:(lia)) as Hwo.
  assert (Hra : wrap32 (r + avail) = wi) by (by apply wrap32_sub_add).
  assert (Hmodn : (r + avail) mod n = wi mod n)
    by (by rewrite <- Hra, Hsize, wrap32_mod_size).
  exists (drained w). split_and!.
  - by apply drain_body_wf.
  - unfold drained, set_log, emit_stderr. fields. fold avail n wi.
    destruct (Z.ltb_spec n avail) as [?|_]; [lia|]. cbn [app].
    f_equal. unfold ring_window. fold n wi.
    replace (Z.to_nat (n - avail `min` n))
      with (length (trace_data (log w)) - Z.to_nat avail)%nat by lia.
    rewrite <- (ring_get_view _ _ (Z.to_nat (r mod n)) (Z.to_nat avail));
      [|lia..| ].
    + unfold ring_get. f_equal; f_equal; lia.
    + destruct (mod_offset_cases n r wi avail) as [Hc|Hc]; [lia|lia|done|lia|lia].
  - unfold drained, set_log. fields. by fold wi.
  - apply unread_drained.
Qed.

(** One iteration on more than a capacity of unread bytes: the report
    with [avail], then a capacity of bytes read from the write cursor less
    the capacity. *)
Lemma drain_body_overflow_shape w :
  ring_wf (log w) →
  rb_size (trace_rb (log w)) < unread w →
  let rb := trace_rb (log w) in
  let index := wrap32 (rb_writeindex rb - rb_size rb) in
  let offset := Z.land index (rb_mask rb) in
  let first := Z.min (rb_size rb) (rb_size rb - offset) in
  ∃ w2,
    drain_body (unread w) (rb_readindex rb) w = Done w2 ∧
    stderr w2 = stderr w
                  ++ overflow_report (unread w)
                  ++ take (Z.to_nat first) (drop (Z.to_nat offset) (trace_data (log w)))
                  ++ take (Z.to_nat (rb_size rb - first)) (trace_data (log w)) ∧
    rb_readindex (trace_rb (log w2)) = rb_writeindex rb.
Proof.
  intros Hwf Hover. cbv zeta.
  pose proof Hwf as (k & Hk & Hsize & Hmask & Hdata & Hr & Hw).
  pose proof (pow2_size_range k Hk) as Hpow.
  rewrite land_mask' by done.
  set (avail := unread w) in *.
  set (n := rb_size (trace_rb (log w))) in *.
  set (wi := rb_writeindex (trace_rb (log w))) in *.
  assert (Hoff : wrap32 (wi - n) mod n = wi mod n).
  { rewrite Hsize, wrap32_mod_size, <- Hsize by done. apply mod_sub_size. lia. }
  rewrite Hoff.
  pose proof (Z.mod_pos_bound wi n ltac:(lia)) as Hwo.
  exists (drained w). split_and!.
  - apply drain_body_wf; [done|]. fold avail. lia.
  - unfold drained, set_log, emit_stderr. fields. fold avail n wi.
    destruct (Z.ltb_spec n avail) as [_|?]; [|lia].
    do 2 f_equal. unfold ring_window. fold n wi.
    replace (Z.to_nat (n - avail `min` n)) with 0%nat by lia. rewrite drop_0.
    rewrite <- (drop_0 (ring_view _ _)).
    replace 0%nat with (length (trace_data (log w)) - Z.to_nat n)%nat at 1 by lia.
    rewrite <- (ring_get_view _ _ (Z.to_nat (wi mod n)) (Z.to_nat n)) by lia.
    unfold ring_get. f_equal; f_equal; lia.
  - unfold drained, set_log. by fields.
Qed.

(** From a drained, armed facility: after the trace calls [cs], a dispatch
    emits the report if more was published than the ring holds, and then
    the newest published bytes, as many as are unread and still held. *)
Lemma drain_after_trace_calls w cs w1 fuel rd :
  ring_wf (log w) →
  1024 ≤ rb_size (trace_rb (log w)) →
  have_source (log w) = true →
  pw_log_level w = SPA_LOG_LEVEL_TRACE →
  rb_readindex (trace_rb (log w)) = rb_writeindex (trace_rb (log w)) →
  run_ops (map trace_op cs) w = Done w1 →
  Z.of_nat (length (published cs)) < 2 ^ 31 →
  (1 ≤ fuel)%nat →
  let total := Z.of_nat (length (published cs)) in
  let size := rb_size (trace_rb (log w)) in
  unread w1 = total ∧
  ∃ w2,
    on_trace_event fuel rd w1 = Done w2 ∧
    stderr w2 = stderr (after_read rd w1)
                  ++ (if size <? total then overflow_report total else [])
                  ++ drop (Z.to_nat (total - Z.min total size)) (published cs) ∧
    unread w2 = 0 ∧
    rb_readindex (trace_rb (log w2)) = rb_writeindex (trace_rb (log w1)).
Proof.
  intros Hwf Hbig Harmed Hlev Hdrained Hrun Htotal Hfuel total size.
  destruct (run_trace_calls cs w w1) as (Hwf1 & _ & _ & Hsz & Hrd & Hwr & Hwin);
    [done..|].
  pose proof Hwf as (k & Hk & Hsize & Hmask & Hdata & Hr & Hw).
  assert (Hu : unread w1 = total).
  { unfold unread, spa_ringbuffer_get_read_index. cbn [fst].
    rewrite Hwr, Hrd, Hdrained. unfold wrap32. rewrite Zminus_mod_idemp_l.
    replace (rb_writeindex (trace_rb (log w)) + Z.of_nat (length (published cs))
             - rb_writeindex (trace_rb (log w))) with total by (subst total; lia).
    fold (wrap32 total). rewrite wrap32_small by lia. apply to_int32_small. lia. }
  split; [done|].
  assert (Hu' : unread (after_read rd w1) = total)
    by (unfold unread; by rewrite log_after_read).
  rewrite on_trace_event_after_read.
  rewrite drain_wf by (rewrite ?log_after_read; done). rewrite Hu'.
  destruct (Z.ltb_spec 0 total) as [Hpos|Hzero].
  - exists (drained (after_read rd w1)). split_and!; [done| |apply unread_drained|].
    + unfold drained, set_log, emit_stderr. fields.
      rewrite Hu', !log_after_read, Hsz, Hwin. fold size. do 2 f_equal.
      assert (Hv : length (ring_window (log w)) = Z.to_nat size).
      { unfold ring_window. rewrite length_ring_view. subst size. lia. }
      rewrite drop_drop, drop_app_ge by lia. f_equal. subst total. lia.
    + unfold drained, set_log. fields. by rewrite log_after_read.
  - assert (total = 0) as Hz by (subst total; lia).
    assert (published cs = []) as Hnil by (apply length_zero_iff_nil; lia).
    exists (after_read rd w1). split_and!; [done| |lia|].
    + rewrite Hz, Hnil.
      destruct (Z.ltb_spec size 0); [lia|]. by rewrite drop_nil, !app_nil_r.
    + rewrite log_after_read, Hrd, Hwr, Hdrained. fold total. rewrite Hz, Z.add_0_r.
      by rewrite wrap32_small.
Qed.

Lemma run_one : run_ops (map trace_op [call_1020]) world_armed = Done world_one.
Proof. vm_compute. reflexivity. Qed.

Lemma run_two :
  run_ops (map trace_op [call_1020; call_1020]) world_armed = Done world_two.
Proof. vm_compute. reflexivity. Qed.

Lemma run_overrun :
  run_ops (map trace_op (replicate 17 call_1020)) world_armed = Done world_overrun.
Proof. vm_compute. reflexivity. Qed.

Lemma reachable_one : reachable world_one.
Proof. apply (reachable_run_ops _ _ _ reachable_armed run_one). Qed.

Lemma reachable_overrun : reachable world_overrun.
Proof. apply (reachable_run_ops _ _ _ reachable_armed run_overrun). Qed.

Lemma ring_wf_armed : ring_wf (log world_armed).
Proof. apply reachable_invariant, reachable_armed. Qed.

(** ** Termination of the consumer's loop *)

(** C5: in every state the program reaches the loop of [on_trace_event]
    terminates. An iteration is entered only with [avail] positive and
    ends with the read cursor moved up by that [avail], after which
    nothing is unread; so one unit of fuel is enough, and the loop is left
    with [avail <= 0]. *)
Theorem drain_terminates w rd fuel :
  reachable w →
  (1 ≤ fuel)%nat →
  (0 < unread w →
   ∃ w1, drain_body (unread w) (rb_readindex (trace_rb (log w))) w = Done w1 ∧
         rb_readindex (trace_rb (log w1))
           = wrap32 (rb_readindex (trace_rb (log w)) + unread w) ∧
         unread w1 = 0) ∧
  (∃ w', drain fuel w = Done w' ∧ unread w' ≤ 0) ∧
  (∃ w', on_trace_event fuel rd w = Done w' ∧ unread w' ≤ 0).
Proof.
  intros Hreach Hfuel. apply reachable_invariant in Hreach as Hinv.
  pose proof (inv_ring _ Hinv) as Hwf. split_and!.
  - intros Hpos. exists (drained w). split_and!.
    + by apply drain_body_wf.
    + destruct (unread_pos w Hwf Hpos) as [Hu _].
      destruct Hwf as (k & Hk & Hsize & Hmask & Hdata & Hr & Hw).
      unfold drained, set_log. fields. symmetry. by apply wrap32_sub_add.
    + apply unread_drained.
  - rewrite drain_wf by done.
    destruct (Z.ltb_spec 0 (unread w)); eexists; (split; [done|]);
      [by rewrite unread_drained|lia].
  - rewrite on_trace_event_after_read.
    rewrite drain_wf by (rewrite ?log_after_read; done).
    assert (Hu : unread (after_read rd w) = unread w)
      by (unfold unread; by rewrite log_after_read).
    rewrite Hu.
    destruct (Z.ltb_spec 0 (unread w)); eexists; (split; [done|]);
      [by rewrite unread_drained|lia].
Qed.

Lemma drain_terminates_witness :
  reachable world_one ∧ (1 ≤ 1)%nat ∧ 0 < unread world_one ∧
  ∃ w', on_trace_event 1 ReadOk world_one = Done w' ∧ unread w' ≤ 0.
Proof.
  split_and!; [apply reachable_one|lia|by vm_compute|].
  apply (drain_terminates world_one ReadOk 1); [apply reachable_one|lia].
Defined.

(** ** The order of the bytes *)

(** C6: an iteration with at most the capacity unread takes the offset
    [index & mask], writes the [first = min(avail, size - offset)] bytes
    from there, then the [avail - first] bytes from the start of the
    storage (none when [avail = first]), and moves the read cursor up by
    [avail]. So after any run of trace calls on a drained, armed facility
    a dispatch puts on standard error the published bytes in the order
    published, less only the oldest ones when more was published than the
    ring holds. *)
Theorem drain_in_publication_order w cs w1 fuel :
  ring_wf (log w) →
  1024 ≤ rb_size (trace_rb (log w)) →
  have_source (log w) = true →
  pw_log_level w = SPA_LOG_LEVEL_TRACE →
  rb_readindex (trace_rb (log w)) = rb_writeindex (trace_rb (log w)) →
  run_ops (map trace_op cs) w = Done w1 →
  Z.of_nat (length (published cs)) < 2 ^ 31 →
  (1 ≤ fuel)%nat →
  let rb := trace_rb (log w1) in
  let avail := unread w1 in
  let offset := Z.land (rb_readindex rb) (rb_mask rb) in
  let first := Z.min avail (rb_size rb - offset) in
  (0 < avail ≤ rb_size rb →
   ∃ w2, drain_body avail (rb_readindex rb) w1 = Done w2 ∧
         stderr w2
           = stderr w1
               ++ take (Z.to_nat first) (drop (Z.to_nat offset) (trace_data (log w1)))
               ++ take (Z.to_nat (avail - first)) (trace_data (log w1)) ∧
         rb_readindex (trace_rb (log w2)) = wrap32 (rb_readindex rb + avail)) ∧
  avail = Z.of_nat (length (published cs)) ∧
  ∃ w2, on_trace_event fuel ReadOk w1 = Done w2 ∧
        (avail ≤ rb_size rb → stderr w2 = stderr w ++ published cs) ∧
        (rb_size rb < avail →
         stderr w2 = stderr w ++ overflow_report avail
                       ++ drop (Z.to_nat (avail - rb_size rb)) (published cs)).
Proof.
  intros Hwf Hbig Harmed Hlev Hdrained Hrun Htotal Hfuel. cbv zeta.
  destruct (run_trace_calls cs w w1) as (Hwf1 & _ & Herr & Hsz & _); [done..|].
  destruct (drain_after_trace_calls w cs w1 fuel ReadOk)
    as (Hu & w2 & Hev & Hout & _); [done..|].
  cbv zeta in Hout. cbn [after_read emit_sys stderr] in Hout.
  rewrite Herr in Hout. split_and!.
  - intros Hav.
    destruct (drain_body_shape w1 Hwf1 Hav) as (w2' & H1 & H2 & H3 & _).
    by exists w2'.
  - done.
  - exists w2. rewrite Hu, Hsz. split_and!; [done| |].
    + intros Hle. rewrite Hout.
      destruct (Z.ltb_spec (rb_size (trace_rb (log w)))
                  (Z.of_nat (length (published cs)))); [lia|].
      cbn [app]. f_equal.
      replace (Z.to_nat _) with 0%nat by lia. apply drop_0.
    + intros Hgt. rewrite Hout.
      destruct (Z.ltb_spec (rb_size (trace_rb (log w)))
                  (Z.of_nat (length (published cs)))); [|lia].
      do 3 f_equal. lia.
Qed.

Lemma drain_in_publication_order_witness :
  ring_wf (log world_armed) ∧
  run_ops (map trace_op [call_1020; call_1020]) world_armed = Done world_two ∧
  ∃ w2, on_trace_event 1 ReadOk world_two = Done w2 ∧
        stderr w2 = record_of call_1020 ++ record_of call_1020.
Proof.
  split_and!; [apply ring_wf_armed|apply run_two|].
  destruct (drain_in_publication_order world_armed [call_1020; call_1020] world_two 1)
    as (_ & Hu & w2 & Hev & Hout & _).
  - apply ring_wf_armed.
  - by vm_compute.
  - reflexivity.
  - reflexivity.
  - reflexivity.
  - apply run_two.
  - by vm_compute.
  - lia.
  - exists w2. split; [done|]. rewrite Hout.
    + cbn [published]. by rewrite app_nil_r.
    + rewrite Hu. by vm_compute.
Defined.

(** ** Overflow *)

(** C2, as stated, fails: with 17340 bytes unread in the ring of 16384 the
    report carries 17340, the unread count, and not 956, the bytes lost. *)
Lemma overflow_report_counterexample :
  unread world_overrun = 17340 ∧
  rb_size (trace_rb (log world_overrun)) = 16384 ∧
  ∃ w2, on_trace_event 1 ReadOk world_overrun = Done w2 ∧
        (∃ rest, stderr w2 = overflow_report (unread world_overrun) ++ rest) ∧
        ¬ (∃ rest, stderr w2
                   = overflow_report (unread world_overrun
                                      - rb_size (trace_rb (log world_overrun)))
                       ++ rest).
Proof.
  split_and!; [by vm_compute..|].
  destruct (drain_after_trace_calls world_armed (replicate 17 call_1020)
              world_overrun 1 ReadOk) as (Hu & w2 & Hev & Hout & _).
  - apply ring_wf_armed.
  - by vm_compute.
  - reflexivity.
  - reflexivity.
  - reflexivity.
  - apply run_overrun.
  - by vm_compute.
  - lia.
  - exists w2. split; [done|]. cbv zeta in Hout.
    assert (Hlen : Z.of_nat (length (published (replicate 17 call_1020))) = 17340)
      by (by vm_compute).
    rewrite Hlen in Hout.
    change (rb_size (trace_rb (log world_armed)) <? 17340) with true in Hout.
    change (stderr (after_read ReadOk world_overrun)) with (@nil byte) in Hout.
    cbn [app] in Hout. split.
    + eexists. rewrite Hout. f_equal; by vm_compute.
    + intros [rest Hrest]. rewrite Hout in Hrest.
      apply (f_equal (take 23)) in Hrest.
      rewrite take_app_le in Hrest by (by vm_compute).
      vm_compute in Hrest. discriminate.
Qed.

(** C2, amended: when more than the capacity is unread the consumer
    prints the report with the unread count [avail] itself (the bytes
    published since the last drain, not the bytes lost), reads on from
    the write cursor less the capacity and treats a capacity as unread;
    what it then puts out is exactly the last [size] published bytes, in
    order, and the read cursor ends at the write cursor. Stated for a run
    of trace calls, of fewer than [2 ^ 31] bytes, on a drained, armed
    facility. *)
Theorem overflow_resynchronises w cs w1 fuel :
  ring_wf (log w) →
  1024 ≤ rb_size (trace_rb (log w)) →
  have_source (log w) = true →
  pw_log_level w = SPA_LOG_LEVEL_TRACE →
  rb_readindex (trace_rb (log w)) = rb_writeindex (trace_rb (log w)) →
  run_ops (map trace_op cs) w = Done w1 →
  rb_size (trace_rb (log w)) < Z.of_nat (length (published cs)) < 2 ^ 31 →
  (1 ≤ fuel)%nat →
  let rb := trace_rb (log w1) in
  let total := Z.of_nat (length (published cs)) in
  let index := wrap32 (rb_writeindex rb - rb_size rb) in
  let offset := Z.land index (rb_mask rb) in
  let first := Z.min (rb_size rb) (rb_size rb - offset) in
  unread w1 = total ∧
  rb_size rb = rb_size (trace_rb (log w)) ∧
  (∃ w2, drain_body (unread w1) (rb_readindex rb) w1 = Done w2 ∧
         stderr w2
           = stderr w1
               ++ overflow_report (unread w1)
               ++ take (Z.to_nat first) (drop (Z.to_nat offset) (trace_data (log w1)))
               ++ take (Z.to_nat (rb_size rb - first)) (trace_data (log w1)) ∧
         rb_readindex (trace_rb (log w2)) = rb_writeindex rb) ∧
  ∃ w2, on_trace_event fuel ReadOk w1 = Done w2 ∧
        stderr w2 = stderr w ++ overflow_report total
                      ++ drop (Z.to_nat (total - rb_size rb)) (published cs) ∧
        length (drop (Z.to_nat (total - rb_size rb)) (published cs))
          = Z.to_nat (rb_size rb) ∧
        rb_readindex (trace_rb (log w2)) = rb_writeindex rb ∧
        unread w2 = 0.
Proof.
  intros Hwf Hbig Harmed Hlev Hdrained Hrun [Hover Htotal] Hfuel. cbv zeta.
  destruct (run_trace_calls cs w w1) as (Hwf1 & _ & Herr & Hsz & _); [done..|].
  destruct (drain_after_trace_calls w cs w1 fuel ReadOk)
    as (Hu & w2 & Hev & Hout & Hzero & Hrd); [done..|].
  cbv zeta in Hout. cbn [after_read emit_sys stderr] in Hout.
  rewrite Herr in Hout. split_and!; [done..| |].
  - apply (drain_body_overflow_shape w1 Hwf1). lia.
  - exists w2. rewrite Hsz. split_and!; [done| | |done..].
    + rewrite Hout.
      destruct (Z.ltb_spec (rb_size (trace_rb (log w)))
                  (Z.of_nat (length (published cs)))); [|lia].
      do 3 f_equal. lia.
    + rewrite length_drop. lia.
Qed.

Lemma overflow_resynchronises_witness :
  ring_wf (log world_armed) ∧
  run_ops (map trace_op (replicate 17 call_1020)) world_armed = Done world_overrun ∧
  ∃ w2, on_trace_event 1 ReadOk world_overrun = Done w2 ∧
        stderr w2 = overflow_report 17340
                      ++ drop 956 (published (replicate 17 call_1020)).
Proof.
  split_and!; [apply ring_wf_armed|apply run_overrun|].
  destruct (overflow_resynchronises world_armed (replicate 17 call_1020)
              world_overrun 1) as (_ & _ & _ & w2 & Hev & Hout & _).
  - apply ring_wf_armed.
  - by vm_compute.
  - reflexivity.
  - reflexivity.
  - reflexivity.
  - apply run_overrun.
  - by vm_compute.
  - lia.
  - exists w2. split; [done|]. rewrite Hout.
    change (stderr world_armed) with (@nil byte). cbn [app].
    assert (Hlen : Z.of_nat (length (published (replicate 17 call_1020))) = 17340)
      by (by vm_compute).
    rewrite Hlen. reflexivity.
Defined.

(** * Further properties of the facility *)

(** ** The wakeup descriptor *)





















(** ** Lines and records *)

Lemma string_app_assoc (a b c : string) : (a +:+ b) +:+ c = a +:+ (b +:+ c).
Proof.
  induction a as [|x a IH]; [done|].
  change (String x ((a +:+ b) +:+ c) = String x (a +:+ b +:+ c)). by rewrite IH.
Qed.

Lemma string_length_app (a b : string) :
  String.length (a +:+ b) = (String.length a + String.length b)%nat.
Proof.
  induction a as [|x a IH]; [done|].
  change (S (String.length (a +:+ b)) = S (String.length a + String.length b)).
  by rewrite IH.
Qed.

Lemma substring_0_ge n s : (String.length s ≤ n)%nat → substring 0 n s = s.
Proof.
  revert n. induction s as [|a s IH]; intros [|n] Hn; cbn in *; try done; try lia.
  rewrite IH; [done|lia].
Qed.


Lemma substring_0_app a b : substring 0 (String.length a) (a +:+ b) = a.
Proof.
  induction a as [|x a IH].
  - by destruct b.
  - change (String x (substring 0 (String.length a) (a +:+ b)) = String x a).
    by rewrite IH.
Qed.

(** Every line ends with the newline of the format. *)
Lemma format_location_newline label base line func text :
  ∃ body, format_location label base line func text = body +:+ nl.
Proof.
  unfold format_location.
  exists ("[" +:+ label +:+ "][" +:+ base +:+ ":" +:+ fmt_int line +:+ " " +:+ func
            +:+ "()] " +:+ text).
  by rewrite !string_app_assoc.
Qed.

(** The bytes copied out of [location]: the line itself while it has at
    most 1023 characters; for a line of 1024, its first 1023 characters
    and the NUL that ends the buffer. *)
Lemma trace_record_bytes base c :
  let full := rendered "*T*" base c in
  ((String.length full ≤ 1023)%nat → trace_record base c = list_byte_of_string full) ∧
  (String.length full = 1024%nat →
   trace_record base c = list_byte_of_string (substring 0 1023 full) ++ [NUL]).
Proof.
  intros full. unfold trace_record, snprintf. fold full.
  change (1024 - 1)%nat with 1023%nat. split; intros Hlen.
  - rewrite substring_0_ge by done. rewrite wrap32_small by lia.
    unfold c_array. rewrite Nat2Z.id.
    apply take_app_length'. by rewrite length_list_byte_of_string.
  - rewrite Hlen. change (Z.to_nat (wrap32 (Z.of_nat 1024))) with 1024%nat.
    rewrite take_ge; [done|]. rewrite length_c_array, length_substring_0. lia.
Qed.

Lemma basename_is_inj file base base' :
  basename_is file base → basename_is file base' → base = base'.
Proof. intros [c H] [c' H']. congruence. Qed.

(** A trace call on an armed facility that is defined had a line that
    fits [location] with its NUL. *)
Lemma do_logv_trace_fits file line func msg w w' base :
  have_source (log w) = true →
  basename_is file base →
  do_logv SPA_LOG_LEVEL_TRACE file line func msg w = Done w' →
  wrap32 (Z.of_nat (String.length (rendered "*T*" base (mk_call file line func msg))))
    ≤ 1024.
Proof.
  intros Harmed [c0 Hp]. unfold do_logv. cbv zeta. rewrite Harmed.
  rewrite bool_decide_eq_true_2 by done. cbn [andb].
  rewrite levels_at_trace_armed, bind_Done, Hp. cbn [ptr_succ]. rewrite bind_Done.
  change (format_location "*T*" base line func (snprintf 1024 msg).1)
    with (rendered "*T*" base (mk_call file line func msg)).
  pose proof (length_location (rendered "*T*" base (mk_call file line func msg))).
  unfold snprintf in *. cbn [fst snd] in *.
  destruct (spa_ringbuffer_write_data _ _ _ _ _) as [d| |] eqn:Hwd; [|done..].
  apply write_data_Done_inv in Hwd; [lia|apply wrap32_range].
Qed.

Lemma armed_do_logv_trace w file line func msg base :
  invariant w → have_source (log w) = true → basename_is file base →
  wrap32 (Z.of_nat (String.length (rendered "*T*" base (mk_call file line func msg))))
    ≤ 1024 →
  do_logv SPA_LOG_LEVEL_TRACE file line func msg w
    = Done (trace_appended (trace_record base (mk_call file line func msg)) w).
Proof.
  intros Hinv Harmed Hbase Hfit. pose proof TRACE_BUFFER_big.
  apply do_logv_trace; [done|apply Hinv|rewrite (inv_size _ Hinv); lia|done|done].
Qed.

(** X3: what a trace line occupies in the ring. On an armed facility a
    line of at most 1023 characters is copied byte for byte; a line of
    exactly 1024 characters is copied without its final newline, the NUL
    that ends [location] taking its place. *)
Theorem trace_line_in_ring w file line func msg base :
  reachable w →
  have_source (log w) = true →
  basename_is file base →
  let full := rendered "*T*" base (mk_call file line func msg) in
  ((String.length full ≤ 1023)%nat →
   do_logv SPA_LOG_LEVEL_TRACE file line func msg w
     = Done (trace_appended (list_byte_of_string full) w)) ∧
  (String.length full = 1024%nat →
   ∃ body, full = body +:+ nl ∧
           do_logv SPA_LOG_LEVEL_TRACE file line func msg w
             = Done (trace_appended (list_byte_of_string body ++ [NUL]) w)).
Proof.
  intros Hreach Harmed Hbase full. apply reachable_invariant in Hreach as Hinv.
  destruct (trace_record_bytes base (mk_call file line func msg)) as [Hshort Hfull].
  fold full in Hshort, Hfull. split; intros Hlen.
  - rewrite (armed_do_logv_trace _ _ _ _ _ base); [by rewrite Hshort|done..|].
    fold full. rewrite wrap32_small; lia.
  - destruct (format_location_newline "*T*" base line func (snprintf 1024 msg).1)
      as [body Hbody].
    change (format_location _ _ _ _ _) with full in Hbody.
    exists body. split; [done|].
    rewrite (armed_do_logv_trace _ _ _ _ _ base); [|done..|].
    + rewrite Hfull by done. do 3 f_equal.
      assert (String.length body = 1023%nat) as <-.
      { rewrite Hbody, string_length_app in Hlen. cbn in Hlen. lia. }
      rewrite Hbody. by rewrite substring_0_app.
    + fold full. rewrite Hlen. by vm_compute.
Qed.

Lemma trace_line_in_ring_witness :
  reachable world_armed ∧
  have_source (log world_armed) = true ∧
  basename_is "src/log.c" "log.c" ∧
  String.length (rendered "*T*" "log.c" call_1024) = 1024%nat ∧
  ∃ body, rendered "*T*" "log.c" call_1024 = body +:+ nl ∧
          do_logv SPA_LOG_LEVEL_TRACE "src/log.c" 7 "f" (long_msg 1004) world_armed
            = Done (trace_appended (list_byte_of_string body ++ [NUL]) world_armed).
Proof.
  split_and!; [apply reachable_armed|reflexivity|by exists "/"%char|by vm_compute|].
  destruct (trace_line_in_ring world_armed "src/log.c" 7 "f" (long_msg 1004) "log.c")
    as [_ H]; [apply reachable_armed|reflexivity|by exists "/"%char|].
  apply H. by vm_compute.
Defined.



(** X11: when a call of [do_logv] is defined. In a state the program
    reaches it returns exactly when [file] has a ['/'] and, if the call
    takes the trace branch (trace level, facility armed), the length of
    its line, as the [uint32_t] passed to the copy, is at most the 1024
    bytes of [location]; the synchronous branch asks nothing of the
    length. *)
Theorem do_logv_defined_iff w level file line func msg :
  reachable w →
  (∃ w', do_logv level file line func msg w = Done w') ↔
  ∃ base, basename_is file base ∧
    (level = SPA_LOG_LEVEL_TRACE → have_source (log w) = true →
     wrap32 (Z.of_nat (String.length
                         (rendered "*T*" base (mk_call file line func msg))))
       ≤ 1024).
Proof.
  intros Hreach. apply reachable_invariant in Hreach as Hinv.
  pose proof TRACE_BUFFER_big. split.
  - intros [w' Hdone].
    pose proof Hdone as Hc.
    apply do_logv_cases in Hc as (base & Hbase & _);
      [|apply Hinv|rewrite (inv_size _ Hinv); lia].
    exists base. split; [done|]. intros -> Harmed.
    by eapply do_logv_trace_fits.
  - intros (base & Hbase & Hfit).
    destruct (bool_decide (level = SPA_LOG_LEVEL_TRACE) && have_source (log w))
      eqn:Htrace.
    + apply andb_prop in Htrace as [Hlev Harmed].
      apply bool_decide_eq_true in Hlev. subst level.
      eexists. apply (armed_do_logv_trace _ _ _ _ _ base); auto.
    + eexists. by apply (do_logv_direct level _ _ _ _ _ base).
Qed.

Lemma do_logv_defined_iff_witness :
  reachable world_armed ∧
  ∃ w', do_logv SPA_LOG_LEVEL_TRACE "src/log.c" 7 "f" (long_msg 1004) world_armed
          = Done w'.
Proof.
  split; [apply reachable_armed|].
  apply (do_logv_defined_iff world_armed); [apply reachable_armed|].
  exists "log.c"%string. split; [by exists "/"%char|]. intros _ _. by vm_compute.
Defined.

(** ** One wakeup for each record *)

Lemma replicate_snoc {A} (n : nat) (x : A) : replicate n x ++ [x] = x :: replicate n x.
Proof. induction n as [|n IH]; [done|]. cbn. by rewrite IH. Qed.

(** What a run of trace calls changes outside the ring. *)
Lemma run_trace_calls_effects w cs w1 :
  reachable w →
  have_source (log w) = true →
  pw_log_level w = SPA_LOG_LEVEL_TRACE →
  run_ops (map trace_op cs) w = Done w1 →
  sys w1 = sys w ++ replicate (length cs) (EvWrite (src_fd (source (log w))) 1) ∧
  stdout w1 = stdout w ∧
  stderr w1 = stderr w ∧
  rb_readindex (trace_rb (log w1)) = rb_readindex (trace_rb (log w)) ∧
  source (log w1) = source (log w) ∧
  have_source (log w1) = true ∧
  pw_log_level w1 = SPA_LOG_LEVEL_TRACE.
Proof.
  revert w. induction cs as [|c cs IH]; intros w Hreach Harmed Hlev Hrun.
  - cbn in Hrun. injection Hrun as <-. cbn [length replicate].
    by rewrite app_nil_r.
  - cbn [map run_ops] in Hrun.
    destruct (run_op (trace_op c) w) as [w'| |] eqn:Hop; try done.
    rewrite bind_Done in Hrun.
    assert (Hreach' : reachable w') by (by eapply reachable_step).
    apply reachable_invariant in Hreach as Hinv. pose proof TRACE_BUFFER_big.
    cbn [trace_op run_op] in Hop. unfold pw_log_log, pw_log_level_enabled in Hop.
    rewrite Hlev, Z.leb_refl in Hop.
    apply do_logv_trace_inv in Hop as (base & Hbase & ->);
      [|done|apply Hinv|rewrite (inv_size _ Hinv); lia].
    destruct (IH _ Hreach') as (Hsys & Hout & Herr & Hrd & Hsrc & Hon & Hl); [done..|].
    unfold trace_appended, emit_sys, set_log in Hsys, Hout, Herr, Hrd, Hsrc. fields.
    split_and!; try done.
    by rewrite Hsys, <- app_assoc.
Qed.

(** X2: the producer's side of a run of trace calls. On an armed facility
    with the threshold at trace, a run of trace calls that is defined
    writes the wakeup descriptor once for each call, each time the
    descriptor the facility holds, and leaves the standard output, the
    standard error, the read cursor and the attachment as they were. *)
Theorem trace_calls_signal_each w cs w1 :
  reachable w →
  have_source (log w) = true →
  pw_log_level w = SPA_LOG_LEVEL_TRACE →
  run_ops (map trace_op cs) w = Done w1 →
  sys w1 = sys w ++ replicate (length cs) (EvWrite (src_fd (source (log w))) 1) ∧
  stdout w1 = stdout w ∧
  stderr w1 = stderr w ∧
  rb_readindex (trace_rb (log w1)) = rb_readindex (trace_rb (log w)) ∧
  source (log w1) = source (log w) ∧
  have_source (log w1) = true.
Proof.
  intros Hreach Harmed Hlev Hrun.
  destruct (run_trace_calls_effects w cs w1) as (H1 & H2 & H3 & H4 & H5 & H6 & _);
    done.
Qed.

Lemma trace_calls_signal_each_witness :
  reachable world_armed ∧
  run_ops (map trace_op [call_1020; call_1020]) world_armed = Done world_two ∧
  sys world_two = sys world_armed ++ [EvWrite 3 1; EvWrite 3 1].
Proof.
  split_and!; [apply reachable_armed|apply run_two|].
  apply (trace_calls_signal_each world_armed [call_1020; call_1020] world_two);
    [apply reachable_armed|reflexivity|reflexivity|apply run_two].
Defined.

(** ** Where a trace record goes *)

Lemma do_set_loop_result loop efd w w1 :
  invariant w → do_set_loop loop efd w = Done w1 →
  invariant w1 ∧
  match loop with
  | Some lp => have_source (log w1) = true ∧ src_fd (source (log w1)) = efd
  | None => have_source (log w1) = false
  end.
Proof.
  intros Hinv Hset. split; [by eapply invariant_do_set_loop|].
  destruct (have_source (log w)) eqn:Harmed.
  - pose proof (inv_registered _ Hinv) as Hreg. rewrite Harmed in Hreg.
    destruct Hreg as (old & Hold & _).
    rewrite (do_set_loop_attached _ _ _ old) in Hset by done.
    injection Hset as <-. by destruct loop.
  - rewrite do_set_loop_detached in Hset by done.
    injection Hset as <-. by destruct loop.
Qed.

(** X13: the attachment decides where a trace record goes. After
    [do_set_loop] with a loop, a trace call copies its record into the
    ring and writes the descriptor [eventfd] just returned; after
    [do_set_loop] with the null loop, the same call prints its line,
    labelled [T], on the standard output. *)
Theorem trace_routing_follows_attachment w loop efd w1 file line func msg base :
  reachable w →
  do_set_loop loop efd w = Done w1 →
  basename_is file base →
  wrap32 (Z.of_nat (String.length (rendered "*T*" base (mk_call file line func msg))))
    ≤ 1024 →
  ∃ w2,
    do_logv SPA_LOG_LEVEL_TRACE file line func msg w1 = Done w2 ∧
    match loop with
    | Some lp =>
        w2 = trace_appended (trace_record base (mk_call file line func msg)) w1 ∧
        sys w2 = sys w1 ++ [EvWrite efd 1] ∧
        stdout w2 = stdout w1
    | None =>
        stdout w2 = stdout w1
                      ++ [fst (snprintf 1024
                                 (rendered "T" base (mk_call file line func msg)))] ∧
        sys w2 = sys w1 ∧
        log w2 = log w1
    end.
Proof.
  intros Hreach Hset Hbase Hfit. apply reachable_invariant in Hreach as Hinv.
  destruct (do_set_loop_result _ _ _ _ Hinv Hset) as [Hinv1 Hstate].
  destruct loop as [lp|].
  - destruct Hstate as [Harmed Hfd]. eexists. split.
    + by apply (armed_do_logv_trace _ _ _ _ _ base).
    + unfold trace_appended, emit_sys, set_log. fields. by rewrite Hfd.
  - eexists. split.
    + apply (do_logv_direct SPA_LOG_LEVEL_TRACE _ _ _ _ _ base); [|done].
      rewrite Hstate. apply andb_false_r.
    + done.
Qed.

Lemma trace_routing_follows_attachment_witness :
  reachable world_armed ∧
  ∃ w1 w2,
    do_set_loop None 0 world_armed = Done w1 ∧
    do_logv SPA_LOG_LEVEL_TRACE "src/log.c" 7 "f" "hello" w1 = Done w2 ∧
    stdout w2 = ["[T][log.c:7 f()] hello" +:+ nl].
Proof.
  split; [apply reachable_armed|].
  exists (detach 1%nat world_armed).
  destruct (trace_routing_follows_attachment world_armed None 0
              (detach 1%nat world_armed) "src/log.c" 7 "f" "hello" "log.c")
    as (w2 & Hrun & Hout & _).
  - apply reachable_armed.
  - reflexivity.
  - by exists "/"%char.
  - by vm_compute.
  - exists w2. split_and!; [reflexivity|done|]. rewrite Hout. reflexivity.
Defined.

(** ** Dispatches *)

Lemma drain_nothing fuel w : unread w ≤ 0 → drain fuel w = Done w.
Proof.
  intros Hu. destruct fuel; cbn [drain]; unfold spa_ringbuffer_get_read_index;
    change (to_int32 _) with (unread w);
    by destruct (Z.ltb_spec 0 (unread w)); [lia|].
Qed.

Lemma unread_after_read rd w : unread (after_read rd w) = unread w.
Proof. unfold unread. by rewrite log_after_read. Qed.

Lemma on_trace_event_wf fuel rd w :
  ring_wf (log w) → (1 ≤ fuel)%nat →
  on_trace_event fuel rd w
    = Done (if 0 <? unread w then drained (after_read rd w) else after_read rd w).
Proof.
  intros Hwf Hfuel. rewrite on_trace_event_after_read.
  rewrite drain_wf by (rewrite ?log_after_read; done).
  by rewrite unread_after_read.
Qed.



(** X6: a failed read of the wakeup descriptor does not stop the drain.
    The dispatch puts the failure, with the text of the error, on the
    standard error and then does exactly what it does after a good read:
    the same bytes follow, and the facility ends in the same state. *)
Theorem read_failure_still_drains w fuel strerror :
  reachable w →
  (1 ≤ fuel)%nat →
  ∃ w_ok w_failed out,
    on_trace_event fuel ReadOk w = Done w_ok ∧
    on_trace_event fuel (ReadFailed strerror) w = Done w_failed ∧
    stderr w_ok = stderr w ++ out ∧
    stderr w_failed
      = stderr w
          ++ list_byte_of_string ("failed to read event fd: " +:+ strerror)
          ++ out ∧
    log w_failed = log w_ok ∧
    stdout w_failed = stdout w_ok ∧
    sys w_failed = sys w_ok.
Proof.
  intros Hreach Hfuel. apply reachable_invariant in Hreach as Hinv.
  pose proof (inv_ring _ Hinv) as Hwf.
  rewrite !on_trace_event_wf by done.
  destruct (0 <? unread w).
  - exists (drained (after_read ReadOk w)),
           (drained (after_read (ReadFailed strerror) w)),
           ((if rb_size (trace_rb (log w)) <? unread w
             then overflow_report (unread w) else [])
              ++ drop (Z.to_nat (rb_size (trace_rb (log w))
                                 - Z.min (unread w) (rb_size (trace_rb (log w)))))
                   (ring_window (log w))).
    split_and!; [done|done|reflexivity| |reflexivity..].
    rewrite app_assoc. reflexivity.
  - exists (after_read ReadOk w), (after_read (ReadFailed strerror) w), [].
    split_and!; [done|done| | |reflexivity..].
    + rewrite app_nil_r. reflexivity.
    + rewrite app_nil_r. reflexivity.
Qed.

Lemma read_failure_still_drains_witness :
  reachable world_one ∧ (1 ≤ 1)%nat ∧
  ∃ w_ok w_failed,
    on_trace_event 1 ReadOk world_one = Done w_ok ∧
    on_trace_event 1 (ReadFailed "Bad file descriptor") world_one = Done w_failed ∧
    log w_failed = log w_ok.
Proof.
  split_and!; [apply reachable_one|lia|].
  destruct (read_failure_still_drains world_one 1 "Bad file descriptor"
              reachable_one (le_n 1))
    as (w_ok & w_failed & out & H1 & H2 & _ & _ & H3 & _).
  by exists w_ok, w_failed.
Defined.

Lemma to_int32_high x : 2 ^ 31 ≤ x < 2 ^ 32 → to_int32 x = x - 2 ^ 32.
Proof.
  intros Hx. unfold to_int32.
  replace (x + 2 ^ 31) with (x - 2 ^ 31 + 1 * 2 ^ 32) by lia.
  rewrite Z.mod_add by lia. rewrite Z.mod_small by lia. lia.
Qed.

(** X7: the unread count is an [int32_t]. When the write cursor is
    [2 ^ 31] or more ahead of the read cursor the count the consumer sees
    is negative, so a dispatch prints nothing, not even the overflow
    report, and leaves the read cursor where it is. *)
Theorem far_behind_consumer_drains_nothing w fuel rd :
  2 ^ 31 ≤ wrap32 (rb_writeindex (trace_rb (log w)) - rb_readindex (trace_rb (log w))) →
  unread w < 0 ∧
  on_trace_event fuel rd w = Done (after_read rd w) ∧
  log (after_read rd w) = log w ∧
  stderr (after_read ReadOk w) = stderr w.
Proof.
  intros Hfar.
  assert (Hu : unread w < 0).
  { unfold unread, spa_ringbuffer_get_read_index. cbn [fst].
    pose proof (wrap32_range (rb_writeindex (trace_rb (log w))
                              - rb_readindex (trace_rb (log w)))).
    rewrite to_int32_high by lia. lia. }
  split_and!; [done| |apply log_after_read|done].
  rewrite on_trace_event_after_read. apply drain_nothing.
  rewrite unread_after_read. lia.
Qed.

Lemma far_behind_consumer_drains_nothing_witness :
  2 ^ 31 ≤ wrap32 (rb_writeindex (trace_rb (log world_far_behind))
                   - rb_readindex (trace_rb (log world_far_behind))) ∧
  on_trace_event 1 ReadOk world_far_behind = Done (after_read ReadOk world_far_behind).
Proof.
  split; [by vm_compute|].
  apply (far_behind_consumer_drains_nothing world_far_behind 1 ReadOk).
  by vm_compute.
Defined.

(** ** Attachment and the ring *)




(** X10: the shape of the ring never changes. In every state the program
    reaches the capacity is 16384, the mask 16383, the storage 16384
    bytes long, and both cursors are [uint32_t] values. *)
Theorem ring_shape_is_kept w :
  reachable w →
  rb_size (trace_rb (log w)) = 16384 ∧
  rb_mask (trace_rb (log w)) = 16383 ∧
  Z.of_nat (length (trace_data (log w))) = 16384 ∧
  0 ≤ rb_readindex (trace_rb (log w)) < 2 ^ 32 ∧
  0 ≤ rb_writeindex (trace_rb (log w)) < 2 ^ 32.
Proof.
  intros Hreach. apply reachable_invariant in Hreach as Hinv.
  destruct (inv_ring _ Hinv) as (k & Hk & Hsize & Hmask & Hdata & Hr & Hw).
  pose proof (inv_size _ Hinv) as Hsz. change TRACE_BUFFER with 16384 in Hsz.
  assert (k = 14) as ->.
  { apply (Z.pow_inj_r 2); [lia..|]. rewrite <- Hsize, Hsz. reflexivity. }
  rewrite Hmask, Hdata, Hsz. split_and!; first [reflexivity|lia].
Qed.

Lemma ring_shape_is_kept_witness :
  reachable world_overrun ∧
  Z.of_nat (length (trace_data (log world_overrun))) = 16384.
Proof.
  split; [apply reachable_overrun|].
  apply (ring_shape_is_kept world_overrun). apply reachable_overrun.
Defined.

(** ** Runs of synchronous calls *)


(** A defined call that does not take the trace branch printed its line. *)
Lemma do_logv_direct_inv level file line func msg w w' :
  bool_decide (level = SPA_LOG_LEVEL_TRACE) && have_source (log w) = false →
  do_logv level file line func msg w = Done w' →
  ∃ base, basename_is file base ∧
          w' = fputs_stdout w
                 (fst (snprintf 1024
                         (rendered (level_label level) base
                            (mk_call file line func msg)))).
Proof.
  intros Hdirect Hdone.
  destruct (strrchr file "/") as [p|] eqn:Hp;
    [|by rewrite do_logv_null in Hdone].
  destruct (strrchr_Some_head _ _ _ Hp) as [base ->].
  exists base. split; [by eexists|].
  rewrite (do_logv_direct _ _ _ _ _ _ base) in Hdone; [|done|by eexists].
  congruence.
Qed.

(** X12: the standard output keeps the order of the calls. A run of
    calls of [pw_log_log], on a facility that is not armed or at levels
    below trace, prints the lines of the calls the threshold admits, in
    the order of the calls, one [fputs] each, and nothing for the others;
    the ring, the standard error and the outside calls are left alone. *)
Theorem stdout_keeps_call_order w lcs w1 :
  have_source (log w) = false ∨ Forall (λ lc, lc.1 ≠ SPA_LOG_LEVEL_TRACE) lcs →
  run_ops (map log_op lcs) w = Done w1 →
  stdout w1 = stdout w ++ printed_run (pw_log_level w) lcs ∧
  log w1 = log w ∧
  pw_log_level w1 = pw_log_level w ∧
  stderr w1 = stderr w ∧
  sys w1 = sys w.
Proof.
  revert w. induction lcs as [|[level c] lcs IH]; intros w Hsync Hrun.
  - cbn in Hrun. injection Hrun as <-. cbn [printed_run]. by rewrite app_nil_r.
  - cbn [map run_ops] in Hrun.
    destruct (run_op (log_op (level, c)) w) as [w'| |] eqn:Hop; try done.
    rewrite bind_Done in Hrun.
    assert (Hdirect : bool_decide (level = SPA_LOG_LEVEL_TRACE)
                        && have_source (log w) = false).
    { destruct Hsync as [Hoff|Hall].
      - rewrite Hoff. apply andb_false_r.
      - apply Forall_cons in Hall as [Hne _]. cbn in Hne.
        by rewrite bool_decide_eq_false_2. }
    assert (Hstep : stdout w' = stdout w ++ printed_by (pw_log_level w) (level, c) ∧
                    log w' = log w ∧ pw_log_level w' = pw_log_level w ∧
                    stderr w' = stderr w ∧ sys w' = sys w).
    { cbn [log_op run_op fst snd] in Hop. unfold pw_log_log, pw_log_level_enabled in Hop.
      unfold printed_by. cbn [fst snd].
      destruct (level_num level <=? level_num (pw_log_level w)).
      - apply do_logv_direct_inv in Hop as (base & [c0 Hbase] & ->); [|done].
        rewrite Hbase. by destruct c.
      - injection Hop as <-. by rewrite app_nil_r. }
    destruct Hstep as (Hout & Hlog & Hlev & Herr & Hsys).
    destruct (IH w') as (Hout1 & Hlog1 & Hlev1 & Herr1 & Hsys1); [|done|].
    { destruct Hsync as [Hoff|Hall]; [left; by rewrite Hlog|right].
      by apply Forall_cons in Hall as [_ ?]. }
    cbn [printed_run]. rewrite Hout1, Hout, Hlev, <- app_assoc.
    split_and!; congruence.
Qed.

Lemma stdout_keeps_call_order_witness :
  have_source (log world_init) = false ∧
  ∃ w1,
    run_ops (map log_op [(SPA_LOG_LEVEL_ERROR, mk_call "src/a.c" 1 "f" "one");
                         (SPA_LOG_LEVEL_WARN, mk_call "src/a.c" 2 "f" "two");
                         (SPA_LOG_LEVEL_NONE, mk_call "src/a.c" 3 "f" "three")])
      world_init = Done w1 ∧
    stdout w1 = ["[E][a.c:1 f()] one" +:+ nl; "[-][a.c:3 f()] three" +:+ nl].
Proof.
  split; [reflexivity|]. eexists. split; [reflexivity|].
  match goal with
  | |- stdout ?w1 = _ =>
      destruct (stdout_keeps_call_order world_init
                  [(SPA_LOG_LEVEL_ERROR, mk_call "src/a.c" 1 "f" "one");
                   (SPA_LOG_LEVEL_WARN, mk_call "src/a.c" 2 "f" "two");
                   (SPA_LOG_LEVEL_NONE, mk_call "src/a.c" 3 "f" "three")] w1)
        as (Hout & _)
  end.
  - by left.
  - reflexivity.
  - rewrite Hout. reflexivity.
Defined.

(** ** Rounds of publishing and draining *)



